(** * Scaled-MM epilogues for the CUTLASS 3.x API (scaled_mm_epilogues_c3x.hpp)

    A shallow embedding of [lightllm::c3x::ScaledEpilogue],
    [ScaledEpilogueBias], [ScaledEpilogueLs] and [ScaledEpilogueBiasLs]:
    the load descriptors of [ScaledEpilogueBase], the visitor trees
    ([EVTCompute]) each variant composes from them, and the [prepare_args]
    functions that marshal tensors into the trees' argument blocks.

    The C++ templates compose types; here a visitor type is a value of
    [EVT], an [Arguments] struct is a value of [Arguments], and the
    per-element callback of the CUTLASS visitors is the function [visit]. *)

From Stdlib Require Import ZArith Lia.
From stdpp Require Import base decidable option list gmap.

Set Warnings "-register-all".
#[local] Open Scope Z_scope.

(** ** Element types, pointers, tensors *)

(** The numeric types the templates are instantiated at. *)
Inductive Element :=
| int32_t | float | half_t | bfloat16_t | float_e4m3_t.

#[global] Instance Element_eq_dec : EqDecision Element.
Proof. solve_decision. Defined.

Definition sizeof_bits_v (T : Element) : nat :=
  match T with
  | int32_t | float => 32
  | half_t | bfloat16_t => 16
  | float_e4m3_t => 8
  end%nat.

(** A pointer is null or the base address of a block of elements; [p[i]]
    is the [i]-th element of that block. *)
Definition block := positive.

Inductive pointer :=
| nullptr
| Ptr (b : block).

#[global] Instance pointer_eq_dec : EqDecision pointer.
Proof. solve_decision. Defined.

(** [torch::Tensor], as far as this file observes it: [data_ptr()] and
    [numel()], the latter being the product of the sizes. *)
Record Tensor := mkTensor {
  data_ptr : pointer;
  sizes : list Z
}.

Definition numel (t : Tensor) : Z := foldr Z.mul 1 (sizes t).

(** ** Visitor types *)

(** [cute::Stride<Int<sM>, Int<sN>, Int<sL>>]. *)
Record Stride := mkStride {
  stride_M : nat;
  stride_N : nat;
  stride_L : nat
}.

#[global] Instance Stride_eq_dec : EqDecision Stride.
Proof. solve_decision. Defined.

Inductive ComputeFn := multiplies | multiply_add.

Inductive FloatRoundStyle :=
| round_indeterminate
| round_toward_zero
| round_to_nearest
| round_toward_infinity
| round_toward_neg_infinity.

#[global] Instance ComputeFn_eq_dec : EqDecision ComputeFn.
Proof. solve_decision. Defined.

#[global] Instance FloatRoundStyle_eq_dec : EqDecision FloatRoundStyle.
Proof. solve_decision. Defined.

(** [EpilogueDescriptor]: only its [TileShape] is used by this file. *)
Record EpilogueDescriptorT := mkEpilogueDescriptor {
  TileShape : nat * nat * nat
}.

(** The template instances of [cutlass::epilogue::fusion] the file names.
    The fields are the template arguments in their order of appearance. *)
Inductive EVT :=
| Sm90AccFetch
| Sm90ColOrScalarBroadcast
    (Stages : nat) (CtaTileShapeMNK : nat * nat * nat)
    (ElementT : Element) (StrideMNL : Stride)
| Sm90RowOrScalarBroadcast
    (Stages : nat) (CtaTileShapeMNK : nat * nat * nat)
    (ElementT : Element) (StrideMNL : Stride)
| Sm90ColBroadcast
    (Stages : nat) (CtaTileShapeMNK : nat * nat * nat)
    (ElementInput ElementCompute : Element) (StrideMNL : Stride)
    (Alignment : nat) (EnableNullptr : bool)
| Sm90RowBroadcast
    (Stages : nat) (CtaTileShapeMNK : nat * nat * nat)
    (ElementInput ElementCompute : Element) (StrideMNL : Stride)
    (Alignment : nat) (EnableNullptr : bool)
| Sm90Compute
    (Fn : ComputeFn) (ElementOutput ElementCompute : Element)
    (RoundStyle : FloatRoundStyle)
| Sm90EVT (NodeOp : EVT) (ChildOps : list EVT).

#[global] Instance EVT_eq_dec : EqDecision EVT.
Proof.
  refine (fix go (x y : EVT) : Decision (x = y) :=
    match x, y with
    | Sm90AccFetch, Sm90AccFetch => left _
    | Sm90ColOrScalarBroadcast s1 t1 e1 d1,
      Sm90ColOrScalarBroadcast s2 t2 e2 d2 =>
        cast_if_and4 (decide (s1 = s2)) (decide (t1 = t2))
                     (decide (e1 = e2)) (decide (d1 = d2))
    | Sm90RowOrScalarBroadcast s1 t1 e1 d1,
      Sm90RowOrScalarBroadcast s2 t2 e2 d2 =>
        cast_if_and4 (decide (s1 = s2)) (decide (t1 = t2))
                     (decide (e1 = e2)) (decide (d1 = d2))
    | Sm90ColBroadcast s1 t1 e1 c1 d1 a1 n1,
      Sm90ColBroadcast s2 t2 e2 c2 d2 a2 n2 =>
        cast_if_and3
          (decide ((s1, t1, e1) = (s2, t2, e2)))
          (decide ((c1, d1) = (c2, d2)))
          (decide ((a1, n1) = (a2, n2)))
    | Sm90RowBroadcast s1 t1 e1 c1 d1 a1 n1,
      Sm90RowBroadcast s2 t2 e2 c2 d2 a2 n2 =>
        cast_if_and3
          (decide ((s1, t1, e1) = (s2, t2, e2)))
          (decide ((c1, d1) = (c2, d2)))
          (decide ((a1, n1) = (a2, n2)))
    | Sm90Compute f1 o1 c1 r1, Sm90Compute f2 o2 c2 r2 =>
        cast_if_and4 (decide (f1 = f2)) (decide (o1 = o2))
                     (decide (c1 = c2)) (decide (r1 = r2))
    | Sm90EVT n1 c1, Sm90EVT n2 c2 =>
        cast_if_and (go n1 n2) (@list_eq_dec _ go c1 c2)
    | _, _ => right _
    end); abstract congruence.
Defined.

(** ** Argument blocks *)

(** The [Arguments] structs of the visitors.  The stride member ([dCol],
    [dRow]) is an empty struct of static integers and [null_default] keeps
    its initialiser [ElementInput(0)] in every block this file builds; both
    are left out.  The block of [Sm90EVT<NodeOp, ChildOps...>] is the tuple
    of the children's blocks followed by the node's. *)
Inductive Arguments :=
| Sm90AccFetch_Arguments
| OrScalarBroadcast_Arguments (ptr : pointer) (broadcast : bool)
| Broadcast_Arguments (ptr : pointer)
| Sm90Compute_Arguments
| Sm90EVT_Arguments (fields : list Arguments).

#[global] Instance Arguments_eq_dec : EqDecision Arguments.
Proof.
  refine (fix go (x y : Arguments) : Decision (x = y) :=
    match x, y with
    | Sm90AccFetch_Arguments, Sm90AccFetch_Arguments => left _
    | OrScalarBroadcast_Arguments p1 b1, OrScalarBroadcast_Arguments p2 b2 =>
        cast_if_and (decide (p1 = p2)) (decide (b1 = b2))
    | Broadcast_Arguments p1, Broadcast_Arguments p2 =>
        cast_if (decide (p1 = p2))
    | Sm90Compute_Arguments, Sm90Compute_Arguments => left _
    | Sm90EVT_Arguments f1, Sm90EVT_Arguments f2 =>
        cast_if (@list_eq_dec _ go f1 f2)
    | _, _ => right _
    end); abstract congruence.
Defined.

(** Value initialisation [Arguments{}] of a visitor's block: the default
    member initialisers ([ptr = nullptr], [row_broadcast = true]). *)
Fixpoint default_Arguments (op : EVT) : Arguments :=
  match op with
  | Sm90AccFetch => Sm90AccFetch_Arguments
  | Sm90ColOrScalarBroadcast _ _ _ _
  | Sm90RowOrScalarBroadcast _ _ _ _ =>
      OrScalarBroadcast_Arguments nullptr true
  | Sm90ColBroadcast _ _ _ _ _ _ _
  | Sm90RowBroadcast _ _ _ _ _ _ _ => Broadcast_Arguments nullptr
  | Sm90Compute _ _ _ _ => Sm90Compute_Arguments
  | Sm90EVT NodeOp ChildOps =>
      Sm90EVT_Arguments
        (map default_Arguments ChildOps ++ [default_Arguments NodeOp])
  end.

(** The fields of the block of [Sm90EVT<NodeOp, ChildOps...>], in order. *)
Definition EVT_fields (op : EVT) : list EVT :=
  match op with
  | Sm90EVT NodeOp ChildOps => ChildOps ++ [NodeOp]
  | _ => []
  end.

(** Whether the [Arguments] struct of a visitor has a member that takes
    an initialiser.  The structs of the accumulator fetch and of a compute
    node are empty; the struct of a load starts with its pointer (its
    stride is an empty struct of static integers); the struct of a tree has
    the members of its fields. *)
Fixpoint has_members (op : EVT) : bool :=
  match op with
  | Sm90AccFetch | Sm90Compute _ _ _ _ => false
  | Sm90EVT NodeOp ChildOps =>
      existsb has_members ChildOps || has_members NodeOp
  | _ => true
  end.

(** The load descriptors: the instances of the four broadcast visitors. *)
Definition is_load (op : EVT) : bool :=
  match op with
  | Sm90ColOrScalarBroadcast _ _ _ _ | Sm90RowOrScalarBroadcast _ _ _ _
  | Sm90ColBroadcast _ _ _ _ _ _ _ | Sm90RowBroadcast _ _ _ _ _ _ _ => true
  | _ => false
  end.

(** Aggregate initialisation [typename Op::Arguments{inits...}] of a tree's
    block: the leading fields take the initialisers, the remaining ones
    are value-initialised. *)
Definition aggregate_init (op : EVT) (inits : list Arguments) : Arguments :=
  Sm90EVT_Arguments
    (inits ++ map default_Arguments (drop (length inits) (EVT_fields op))).

(** A block has the shape of its visitor type. *)
Fixpoint has_shape (op : EVT) (args : Arguments) {struct op} : bool :=
  match op, args with
  | Sm90AccFetch, Sm90AccFetch_Arguments => true
  | Sm90ColOrScalarBroadcast _ _ _ _, OrScalarBroadcast_Arguments _ _
  | Sm90RowOrScalarBroadcast _ _ _ _, OrScalarBroadcast_Arguments _ _ => true
  | Sm90ColBroadcast _ _ _ _ _ _ _, Broadcast_Arguments _
  | Sm90RowBroadcast _ _ _ _ _ _ _, Broadcast_Arguments _ => true
  | Sm90Compute _ _ _ _, Sm90Compute_Arguments => true
  | Sm90EVT NodeOp ChildOps, Sm90EVT_Arguments fields =>
      (fix go (ops : list EVT) (fs : list Arguments) : bool :=
         match ops, fs with
         | [], [f] => has_shape NodeOp f
         | o :: ops', f :: fs' => has_shape o f && go ops' fs'
         | _, _ => false
         end) ChildOps fields
  | _, _ => false
  end.

(** The pointers captured by a block, left to right. *)
Fixpoint pointers_of (args : Arguments) : list pointer :=
  match args with
  | OrScalarBroadcast_Arguments p _ | Broadcast_Arguments p => [p]
  | Sm90EVT_Arguments fields => concat (map pointers_of fields)
  | _ => []
  end.

(** ** ScaledEpilogueBase: the common load descriptors *)

Module ScaledEpilogueBase.
Section Template.
Variables (ElementAcc ElementD : Element).
Variable (EpilogueDescriptor : EpilogueDescriptorT).

Definition Accum : EVT := Sm90AccFetch.

Definition ColOrScalarLoad (T : Element) : EVT :=
  Sm90ColOrScalarBroadcast
    0 (TileShape EpilogueDescriptor) T (mkStride 1 0 0).

Definition RowOrScalarLoad (T : Element) : EVT :=
  Sm90RowOrScalarBroadcast
    0 (TileShape EpilogueDescriptor) T (mkStride 0 1 0).

(* Don't want to support nullptr by default *)
Definition ColLoad (T : Element) (EnableNullPtr : bool) : EVT :=
  Sm90ColBroadcast
    0 (TileShape EpilogueDescriptor) T T (mkStride 1 0 0)
    (128 / sizeof_bits_v T)%nat EnableNullPtr.

(* Don't want to support nullptr by default *)
Definition RowLoad (T : Element) (EnableNullPtr : bool) : EVT :=
  Sm90RowBroadcast
    0 (TileShape EpilogueDescriptor) T T (mkStride 0 1 0)
    (128 / sizeof_bits_v T)%nat EnableNullPtr.

(** [Arguments{data_ptr}] with [Arguments = Descriptor::Arguments] and
    [data_ptr : T*].  The [Arguments] structs are aggregates, as the brace
    initialisations in [prepare_args] require, so the braces of nested
    structs may be left out: the one initialiser goes to the first member
    that takes one, and everything after it is value-initialised.
    - For a load that member is its pointer to the element type, and the
      initialisation is well-typed when that type is [T].
    - For a tree the fields are tried in order, children first and the
      node last; a field whose struct is empty takes no initialiser and
      is passed over.
    - The empty structs of the accumulator fetch and of a compute node
      have no member for the initialiser.
    [None] stands for a program that does not compile. *)
Fixpoint init_from_ptr (Descriptor : EVT) (T : Element)
    (data_ptr : pointer) {struct Descriptor} : option Arguments :=
  match Descriptor with
  | Sm90ColOrScalarBroadcast _ _ E _ | Sm90RowOrScalarBroadcast _ _ E _ =>
      if decide (E = T)
      then Some (OrScalarBroadcast_Arguments data_ptr true) else None
  | Sm90ColBroadcast _ _ E _ _ _ _ | Sm90RowBroadcast _ _ E _ _ _ _ =>
      if decide (E = T) then Some (Broadcast_Arguments data_ptr) else None
  | Sm90AccFetch | Sm90Compute _ _ _ _ => None
  | Sm90EVT NodeOp ChildOps =>
      Sm90EVT_Arguments <$>
      (fix fields (ops : list EVT) : option (list Arguments) :=
         match ops with
         | [] => (λ node_args, [node_args])
                   <$> init_from_ptr NodeOp T data_ptr
         | op :: ops' =>
             if has_members op
             then (λ first,
                     first :: map default_Arguments (ops' ++ [NodeOp]))
                    <$> init_from_ptr op T data_ptr
             else (λ rest, default_Arguments op :: rest) <$> fields ops'
         end) ChildOps
  end.

(** This utility function constructs the arguments for the load
    descriptors from a tensor.  It can handle both row and column, as
    well as row/column or scalar cases.  A failing [static_assert] is
    [None]. *)
Definition args_from_tensor (Descriptor : EVT) (T : Element)
    (tensor : Tensor) : option Arguments :=
  let data_ptr := data_ptr tensor in
  if decide (Descriptor = ColOrScalarLoad T
             ∨ Descriptor = RowOrScalarLoad T)
  then Some (OrScalarBroadcast_Arguments
               data_ptr (negb (numel tensor =? 1)))
  else
    if decide (Descriptor ≠ ColLoad T true ∧ Descriptor ≠ RowLoad T true)
    then init_from_ptr Descriptor T data_ptr
    else None.

(** This overload handles the case where there might not be a tensor, in
    which case a nullptr is passed and a constant (0) is used. *)
Definition args_from_optional_tensor (Descriptor : EVT) (T : Element)
    (tensor : option Tensor) : option Arguments :=
  let data_ptr :=
    match tensor with Some t => data_ptr t | None => nullptr end in
  if decide (Descriptor = ColLoad T true ∨ Descriptor = RowLoad T true)
  then init_from_ptr Descriptor T data_ptr
  else None.
End Template.
End ScaledEpilogueBase.

(** ** ScaledEpilogue

    This epilogue function defines a quantized GEMM operation similar to
    torch.scaled_mm_.  ScaleA and ScaleB define the epilogue functions that
    apply the scales for the A and B operands respectively.  These scales
    may be either per-tensor or per row or column. *)

Module ScaledEpilogue.
Section Template.
Variables (ElementAcc ElementD : Element).
Variable (EpilogueDescriptor : EpilogueDescriptorT).

Definition Accum : EVT := ScaledEpilogueBase.Accum.
Definition ScaleA : EVT :=
  ScaledEpilogueBase.ColOrScalarLoad EpilogueDescriptor float.
Definition ScaleB : EVT :=
  ScaledEpilogueBase.RowOrScalarLoad EpilogueDescriptor float.

Definition Compute0 : EVT :=
  Sm90Compute multiplies float float round_to_nearest.

Definition EVTCompute0 : EVT := Sm90EVT Compute0 [ScaleB; Accum].

Definition Compute1 : EVT :=
  Sm90Compute multiplies ElementD float round_to_nearest.

Definition EVTCompute : EVT := Sm90EVT Compute1 [ScaleA; EVTCompute0].

Definition prepare_args (a_scales b_scales : Tensor) : option Arguments :=
  a_args ← ScaledEpilogueBase.args_from_tensor
             EpilogueDescriptor ScaleA float a_scales;
  b_args ← ScaledEpilogueBase.args_from_tensor
             EpilogueDescriptor ScaleB float b_scales;
  let evt0_args := aggregate_init EVTCompute0 [b_args] in
  Some (aggregate_init EVTCompute [a_args; evt0_args]).
End Template.
End ScaledEpilogue.

(** ** ScaledEpilogueBias

    This epilogue performs the same operation as ScaledEpilogue, but adds a
    bias.  The bias tensor must be per-output channel.  ScaleA and ScaleB
    can be per-tensor or per-token/per-channel. *)

Module ScaledEpilogueBias.
Section Template.
Variables (ElementAcc ElementD : Element).
Variable (EpilogueDescriptor : EpilogueDescriptorT).

Definition Accum : EVT := ScaledEpilogueBase.Accum.
Definition ScaleA : EVT :=
  ScaledEpilogueBase.ColOrScalarLoad EpilogueDescriptor float.
Definition ScaleB : EVT :=
  ScaledEpilogueBase.RowOrScalarLoad EpilogueDescriptor float.
Definition Bias : EVT :=
  ScaledEpilogueBase.RowLoad EpilogueDescriptor ElementD false.

Definition Compute0 : EVT :=
  Sm90Compute multiplies float float round_to_nearest.

Definition EVTCompute0 : EVT := Sm90EVT Compute0 [ScaleB; Accum].

Definition Compute1 : EVT :=
  Sm90Compute multiply_add ElementD float round_to_nearest.

Definition EVTCompute : EVT :=
  Sm90EVT Compute1 [ScaleA; EVTCompute0; Bias].

Definition prepare_args (a_scales b_scales bias : Tensor)
    : option Arguments :=
  a_args ← ScaledEpilogueBase.args_from_tensor
             EpilogueDescriptor ScaleA float a_scales;
  b_args ← ScaledEpilogueBase.args_from_tensor
             EpilogueDescriptor ScaleB float b_scales;
  bias_args ← ScaledEpilogueBase.args_from_tensor
                EpilogueDescriptor Bias ElementD bias;
  let evt0_args := aggregate_init EVTCompute0 [b_args] in
  Some (aggregate_init EVTCompute [a_args; evt0_args; bias_args]).
End Template.
End ScaledEpilogueBias.

(** ** ScaledEpilogueLs

    This epilogue performs the same operation as ScaledEpilogue, but
    multiplies a Ls.  The Ls tensor must be per-output channel.  ScaleA and
    ScaleB can be per-tensor or per-token/per-channel. *)

Module ScaledEpilogueLs.
Section Template.
Variables (ElementAcc ElementD : Element).
Variable (EpilogueDescriptor : EpilogueDescriptorT).

Definition Accum : EVT := ScaledEpilogueBase.Accum.
Definition ScaleA : EVT :=
  ScaledEpilogueBase.ColOrScalarLoad EpilogueDescriptor float.
Definition ScaleB : EVT :=
  ScaledEpilogueBase.RowOrScalarLoad EpilogueDescriptor float.
Definition Ls : EVT :=
  ScaledEpilogueBase.RowLoad EpilogueDescriptor ElementD false.

Definition Compute0 : EVT :=
  Sm90Compute multiplies float float round_to_nearest.

Definition EVTCompute0 : EVT := Sm90EVT Compute0 [ScaleB; Accum].

Definition Compute1 : EVT :=
  Sm90Compute multiplies float float round_to_nearest.

Definition EVTCompute1 : EVT := Sm90EVT Compute1 [ScaleA; EVTCompute0].

Definition Compute2 : EVT :=
  Sm90Compute multiplies ElementD float round_to_nearest.

Definition EVTCompute : EVT := Sm90EVT Compute2 [Ls; EVTCompute1].

Definition prepare_args (a_scales b_scales ls : Tensor)
    : option Arguments :=
  a_args ← ScaledEpilogueBase.args_from_tensor
             EpilogueDescriptor ScaleA float a_scales;
  b_args ← ScaledEpilogueBase.args_from_tensor
             EpilogueDescriptor ScaleB float b_scales;
  ls_args ← ScaledEpilogueBase.args_from_tensor
              EpilogueDescriptor Ls ElementD ls;
  let evt0_args := aggregate_init EVTCompute0 [b_args] in
  let evt1_args := aggregate_init EVTCompute1 [a_args; evt0_args] in
  Some (aggregate_init EVTCompute [ls_args; evt1_args]).
End Template.
End ScaledEpilogueLs.

(** ** ScaledEpilogueBiasLs

    This epilogue performs the same operation as ScaledEpilogue, but adds a
    bias and multiplies a Ls.  The bias tensor must be per-output channel.
    The Ls tensor must be per-output channel.  ScaleA and ScaleB can be
    per-tensor or per-token/per-channel. *)

Module ScaledEpilogueBiasLs.
Section Template.
Variables (ElementAcc ElementD : Element).
Variable (EpilogueDescriptor : EpilogueDescriptorT).

Definition Accum : EVT := ScaledEpilogueBase.Accum.
Definition ScaleA : EVT :=
  ScaledEpilogueBase.ColOrScalarLoad EpilogueDescriptor float.
Definition ScaleB : EVT :=
  ScaledEpilogueBase.RowOrScalarLoad EpilogueDescriptor float.
Definition Bias : EVT :=
  ScaledEpilogueBase.RowLoad EpilogueDescriptor ElementD false.
Definition Ls : EVT :=
  ScaledEpilogueBase.RowLoad EpilogueDescriptor ElementD false.

Definition Compute0 : EVT :=
  Sm90Compute multiplies float float round_to_nearest.

Definition EVTCompute0 : EVT := Sm90EVT Compute0 [ScaleB; Accum].

Definition Compute1 : EVT :=
  Sm90Compute multiply_add float float round_to_nearest.

Definition EVTCompute1 : EVT :=
  Sm90EVT Compute1 [ScaleA; EVTCompute0; Bias].

Definition Compute2 : EVT :=
  Sm90Compute multiplies ElementD float round_to_nearest.

Definition EVTCompute : EVT := Sm90EVT Compute2 [Ls; EVTCompute1].

Definition prepare_args (a_scales b_scales bias ls : Tensor)
    : option Arguments :=
  a_args ← ScaledEpilogueBase.args_from_tensor
             EpilogueDescriptor ScaleA float a_scales;
  b_args ← ScaledEpilogueBase.args_from_tensor
             EpilogueDescriptor ScaleB float b_scales;
  bias_args ← ScaledEpilogueBase.args_from_tensor
                EpilogueDescriptor Bias ElementD bias;
  ls_args ← ScaledEpilogueBase.args_from_tensor
              EpilogueDescriptor Ls ElementD ls;
  let evt0_args := aggregate_init EVTCompute0 [b_args] in
  let evt1_args :=
    aggregate_init EVTCompute1 [a_args; evt0_args; bias_args] in
  Some (aggregate_init EVTCompute [ls_args; evt1_args]).
End Template.
End ScaledEpilogueBiasLs.

(** ** Numeric primitives *)

(** The arithmetic of the element types: [cutlass::NumericConverter<T, S,
    Round>] between two different types and the functors
    [cutlass::multiplies<T>] and [cutlass::multiply_add<T>].  Values of all
    element types live in one carrier [num]; a conversion maps a value to
    its image in the target type. *)
Class Numeric (num : Type) := {
  NumericConverter : Element → Element → FloatRoundStyle → num → num;
  multiplies_op : Element → num → num → num;
  multiply_add_op : Element → num → num → num → num;
  ElementInput_0 : num
}.

(** Exact integer arithmetic: every conversion is the identity. *)
#[global] Instance Numeric_Z : Numeric Z := {|
  NumericConverter _ _ _ x := x;
  multiplies_op _ a b := a * b;
  multiply_add_op _ a b c := a * b + c;
  ElementInput_0 := 0
|}.

(** ** Evaluation of a visitor tree at one output coordinate *)

(** Global memory: the contents of each allocated block. *)
Abbreviation Memory num := (gmap block (list num)).

(** The coordinate (m, n, l) of an output element: row, column, batch. *)
Definition coord : Type := nat * nat * nat.

(** [f] applied to every element of a list together with its index,
    counting from [i]; fails as soon as one application fails. *)
Fixpoint imapM {A B : Type} (f : nat → A → option B) (i : nat)
    (l : list A) : option (list B) :=
  match l with
  | [] => Some []
  | x :: l' => y ← f i x; ys ← imapM f (S i) l'; Some (y :: ys)
  end.

Section Visit.
Context {num : Type} `{!Numeric num}.

(** [ptr[i]]; reading through a null pointer or past the end of the
    block has no defined result. *)
Definition load (mem : Memory num) (ptr : pointer) (i : nat) : option num :=
  match ptr with
  | nullptr => None
  | Ptr b => mem !! b ≫= (.!! i)
  end.

(** The offset a stride assigns to a coordinate. *)
Definition crd2idx (c : coord) (d : Stride) : nat :=
  let '(m, n, l) := c in
  (m * stride_M d + n * stride_N d + l * stride_L d)%nat.

(** Conversion of a value of type [S] to type [T]: the identity when the
    types agree, [NumericConverter] otherwise. *)
Definition convert (T S : Element) (Round : FloatRoundStyle) (x : num)
    : num :=
  if decide (T = S) then x else NumericConverter T S Round x.

Definition ComputeFn_apply (Fn : ComputeFn) (T : Element)
    (inputs : list num) : option num :=
  match Fn, inputs with
  | multiplies, [a; b] => Some (multiplies_op T a b)
  | multiply_add, [a; b; c] => Some (multiply_add_op T a b c)
  | _, _ => None
  end.

(** The element type a visitor produces; [ElementAcc] is the type of the
    accumulator the kernel is instantiated with. *)
Fixpoint ElementOutput_of (ElementAcc : Element) (op : EVT) : Element :=
  match op with
  | Sm90AccFetch => ElementAcc
  | Sm90ColOrScalarBroadcast _ _ T _
  | Sm90RowOrScalarBroadcast _ _ T _ => T
  | Sm90ColBroadcast _ _ _ ElementCompute _ _ _
  | Sm90RowBroadcast _ _ _ ElementCompute _ _ _ => ElementCompute
  | Sm90Compute _ ElementOutput _ _ => ElementOutput
  | Sm90EVT NodeOp _ => ElementOutput_of ElementAcc NodeOp
  end.

(** Modelled from the spec: the per-element callbacks of the visitors,
    which live in broadcast_load_epilogue_c3x.hpp
    ([Sm90ColOrScalarBroadcast], [Sm90RowOrScalarBroadcast]) and in
    CUTLASS, neither of which is part of the sources at hand.
    - accumulator fetch yields the accumulator value at the coordinate;
    - a scalar-or-broadcast load carries one flag that tells a true
      scalar (the coordinate is ignored, [*ptr] is used) from a vector
      indexed through the descriptor's stride;
    - a plain broadcast load is always indexed through its stride; a
      null pointer stands for an absent operand and yields the constant
      0, and is accepted only when the descriptor enables it;
    - a compute node converts the values of its children to its compute
      type, applies its operator and converts the result to its output
      type;
    - a tree evaluates its children left to right and hands their values
      to its node. *)
Fixpoint visit (ElementAcc : Element) (op : EVT) (args : Arguments)
    (mem : Memory num) (frg_acc : num) (c : coord)
    (frg_inputs : list (Element * num)) {struct op} : option num :=
  match op, args with
  | Sm90AccFetch, Sm90AccFetch_Arguments => Some frg_acc
  | Sm90ColOrScalarBroadcast _ _ _ dCol,
    OrScalarBroadcast_Arguments ptr_col col_broadcast =>
      if col_broadcast then load mem ptr_col (crd2idx c dCol)
      else load mem ptr_col 0
  | Sm90RowOrScalarBroadcast _ _ _ dRow,
    OrScalarBroadcast_Arguments ptr_row row_broadcast =>
      if row_broadcast then load mem ptr_row (crd2idx c dRow)
      else load mem ptr_row 0
  | Sm90ColBroadcast _ _ ElementInput ElementCompute dCol _ EnableNullptr,
    Broadcast_Arguments ptr_col =>
      if EnableNullptr && bool_decide (ptr_col = nullptr)
      then Some (convert ElementCompute ElementInput round_to_nearest
                   ElementInput_0)
      else convert ElementCompute ElementInput round_to_nearest
             <$> load mem ptr_col (crd2idx c dCol)
  | Sm90RowBroadcast _ _ ElementInput ElementCompute dRow _ EnableNullptr,
    Broadcast_Arguments ptr_row =>
      if EnableNullptr && bool_decide (ptr_row = nullptr)
      then Some (convert ElementCompute ElementInput round_to_nearest
                   ElementInput_0)
      else convert ElementCompute ElementInput round_to_nearest
             <$> load mem ptr_row (crd2idx c dRow)
  | Sm90Compute Fn ElementOutput ElementCompute RoundStyle,
    Sm90Compute_Arguments =>
      let cvt_inputs :=
        map (λ '(ElementInput, x),
               convert ElementCompute ElementInput RoundStyle x)
            frg_inputs in
      convert ElementOutput ElementCompute RoundStyle
        <$> ComputeFn_apply Fn ElementCompute cvt_inputs
  | Sm90EVT NodeOp ChildOps, Sm90EVT_Arguments fields =>
      (fix visit_children (ops : list EVT) (fs : list Arguments)
           (outputs : list (Element * num)) : option num :=
         match ops, fs with
         | [], [node_args] =>
             visit ElementAcc NodeOp node_args mem frg_acc c
                   (reverse outputs)
         | child :: ops', child_args :: fs' =>
             x ← visit ElementAcc child child_args mem frg_acc c [];
             visit_children ops' fs'
               ((ElementOutput_of ElementAcc child, x) :: outputs)
         | _, _ => None
         end) ChildOps fields []
  | _, _ => None
  end.

(** Modelled from the spec: the evaluator [evaluateEpilogue], which is
    the CUTLASS collective epilogue and not part of the sources at hand.
    The accumulator tile is a list of rows; the tree is evaluated once
    per output element, at that element's coordinate, and the launch as
    a whole has a result only if every element has one. *)
Definition evaluateEpilogue (ElementAcc : Element) (op : EVT)
    (args : Arguments) (mem : Memory num) (l : nat)
    (tile : list (list num)) : option (list (list num)) :=
  imapM (λ m row,
           imapM (λ n acc, visit ElementAcc op args mem acc (m, n, l) [])
                 0 row)
        0 tile.
End Visit.

(** ** The four variants behind one entry point *)

Inductive VariantTag := Scaled | ScaledBias | ScaledLs | ScaledBiasLs.

Section Dispatch.
Variables (ElementD : Element) (ed : EpilogueDescriptorT).

Definition variantEVT (v : VariantTag) : EVT :=
  match v with
  | Scaled => ScaledEpilogue.EVTCompute ElementD ed
  | ScaledBias => ScaledEpilogueBias.EVTCompute ElementD ed
  | ScaledLs => ScaledEpilogueLs.EVTCompute ElementD ed
  | ScaledBiasLs => ScaledEpilogueBiasLs.EVTCompute ElementD ed
  end.

(** Modelled from the spec: the variant selection call [buildArguments],
    made by the kernel dispatch code that is not part of the sources at
    hand.  The variant tag fixes which operands are passed on to the
    variant's [prepare_args]; the others are not looked at. *)
Definition buildArguments (v : VariantTag)
    (scaleA scaleB bias multiplier : Tensor) : option Arguments :=
  match v with
  | Scaled => ScaledEpilogue.prepare_args ElementD ed scaleA scaleB
  | ScaledBias =>
      ScaledEpilogueBias.prepare_args ElementD ed scaleA scaleB bias
  | ScaledLs =>
      ScaledEpilogueLs.prepare_args ElementD ed scaleA scaleB multiplier
  | ScaledBiasLs =>
      ScaledEpilogueBiasLs.prepare_args
        ElementD ed scaleA scaleB bias multiplier
  end.
End Dispatch.

Definition has_bias (v : VariantTag) : bool :=
  match v with ScaledBias | ScaledBiasLs => true | _ => false end.

Definition has_multiplier (v : VariantTag) : bool :=
  match v with ScaledLs | ScaledBiasLs => true | _ => false end.

(** The operands a variant reads. *)
Definition operands (v : VariantTag) (scaleA scaleB bias multiplier : Tensor)
    : list Tensor :=
  [scaleA; scaleB]
  ++ (if has_bias v then [bias] else [])
  ++ (if has_multiplier v then [multiplier] else []).

(** ** The specification's view of operands and formulas *)

(** The block of a scale operand: the data pointer, and the broadcast flag
    set unless the tensor has exactly one element. *)
Definition scale_args (tensor : Tensor) : Arguments :=
  OrScalarBroadcast_Arguments (data_ptr tensor) (negb (numel tensor =? 1)).

(** The block of a bias or Ls operand: the data pointer alone. *)
Definition vector_args (tensor : Tensor) : Arguments :=
  Broadcast_Arguments (data_ptr tensor).

(** The block of the innermost tree, [scaleB * Acc]. *)
Definition evt0_block (b_scales : Tensor) : Arguments :=
  Sm90EVT_Arguments
    [scale_args b_scales; Sm90AccFetch_Arguments; Sm90Compute_Arguments].

Section SpecView.
Context {num : Type} `{!Numeric num}.
Variables (ElementAcc ElementD : Element).

(** A scale operand at position [i] of its axis: exactly one element
    means the same value everywhere, anything else a vector. *)
Definition scale_value (mem : Memory num) (tensor : Tensor) (i : nat)
    : option num :=
  load mem (data_ptr tensor) (if numel tensor =? 1 then 0%nat else i).

(** A bias or multiplier operand at column [n]: always a vector. *)
Definition channel_value (mem : Memory num) (tensor : Tensor) (n : nat)
    : option num :=
  load mem (data_ptr tensor) n.

Definition to_float (S : Element) (x : num) : num :=
  convert float S round_to_nearest x.

Definition to_ElementD (x : num) : num :=
  convert ElementD float round_to_nearest x.

(** The accumulator cast to the output type. *)
Definition cast_acc (acc : num) : num :=
  to_ElementD (to_float ElementAcc acc).

(** D = scaleA * (scaleB * Acc) *)
Definition D_Scaled (scaleA scaleB acc : num) : num :=
  to_ElementD
    (multiplies_op float scaleA
       (multiplies_op float scaleB (to_float ElementAcc acc))).

(** D = scaleA * (scaleB * Acc) + bias *)
Definition D_ScaledBias (scaleA scaleB bias acc : num) : num :=
  to_ElementD
    (multiply_add_op float scaleA
       (multiplies_op float scaleB (to_float ElementAcc acc))
       (to_float ElementD bias)).

(** D = L * (scaleA * (scaleB * Acc)) *)
Definition D_ScaledLs (scaleA scaleB L acc : num) : num :=
  to_ElementD
    (multiplies_op float (to_float ElementD L)
       (multiplies_op float scaleA
          (multiplies_op float scaleB (to_float ElementAcc acc)))).

(** D = L * (scaleA * (scaleB * Acc) + bias) *)
Definition D_ScaledBiasLs (scaleA scaleB bias L acc : num) : num :=
  to_ElementD
    (multiplies_op float (to_float ElementD L)
       (multiply_add_op float scaleA
          (multiplies_op float scaleB (to_float ElementAcc acc))
          (to_float ElementD bias))).

(** The formula of each variant at coordinate (m, n), from operands in
    memory: scaleA by row, scaleB by column, bias and L by column. *)
Definition D_at (v : VariantTag) (mem : Memory num)
    (scaleA scaleB bias multiplier : Tensor) (m n : nat) (acc : num)
    : option num :=
  match v with
  | Scaled =>
      a ← scale_value mem scaleA m;
      b ← scale_value mem scaleB n;
      Some (D_Scaled a b acc)
  | ScaledBias =>
      a ← scale_value mem scaleA m;
      b ← scale_value mem scaleB n;
      c ← channel_value mem bias n;
      Some (D_ScaledBias a b c acc)
  | ScaledLs =>
      L ← channel_value mem multiplier n;
      a ← scale_value mem scaleA m;
      b ← scale_value mem scaleB n;
      Some (D_ScaledLs a b L acc)
  | ScaledBiasLs =>
      L ← channel_value mem multiplier n;
      a ← scale_value mem scaleA m;
      b ← scale_value mem scaleB n;
      c ← channel_value mem bias n;
      Some (D_ScaledBiasLs a b c L acc)
  end.

(** The data a tensor points to. *)
Definition tensor_data (mem : Memory num) (tensor : Tensor)
    : option (list num) :=
  match data_ptr tensor with
  | nullptr => None
  | Ptr b => mem !! b
  end.

(** Overwriting entry [i] of the data a tensor points to. *)
Definition set_entry (mem : Memory num) (tensor : Tensor) (i : nat)
    (x : num) : Memory num :=
  match data_ptr tensor with
  | nullptr => mem
  | Ptr b => alter (λ data, <[i := x]> data) b mem
  end.
End SpecView.

(** The identities of exact arithmetic the identity laws rest on: [one] is
    a left unit of multiplication, adding [zero] changes nothing, and
    conversions keep both. *)
Class ExactUnits (num : Type) `{!Numeric num} (one zero : num) : Prop := {
  multiplies_one_l : ∀ T x, multiplies_op T one x = x;
  multiply_add_zero :
    ∀ T a b, multiply_add_op T a b zero = multiplies_op T a b;
  convert_one : ∀ T S r, NumericConverter T S r one = one;
  convert_zero : ∀ T S r, NumericConverter T S r zero = zero
}.

(** ** Example operands *)

Module Ex.
Definition ed : EpilogueDescriptorT := mkEpilogueDescriptor (64, 128, 64)%nat.

Definition mem : Memory Z :=
  <[1%positive := [2; 3]]> (
  <[2%positive := [10; 100]]> (
  <[3%positive := [1; 1]]> (
  <[4%positive := [2; 1]]> (
  <[5%positive := [1]]> (
  <[6%positive := [0; 0]]> (
  <[7%positive := [1; 1]]> (
  <[8%positive := []]> (
  <[9%positive := [5]]> ∅)))))))).

Definition tile : list (list Z) := [[1; 2]; [3; 4]].

(** per-row scaleA [2,3], per-column scaleB [10,100] *)
Definition a_scales : Tensor := mkTensor (Ptr 1%positive) [2; 1].
Definition b_scales : Tensor := mkTensor (Ptr 2%positive) [1; 2].
(** per-column bias [1,1] and multiplier [2,1] *)
Definition bias : Tensor := mkTensor (Ptr 3%positive) [2].
Definition ls : Tensor := mkTensor (Ptr 4%positive) [2].
(** a per-tensor scale 1, a zero bias, an all-one multiplier *)
Definition scalar_one : Tensor := mkTensor (Ptr 5%positive) [1; 1].
Definition bias_zero : Tensor := mkTensor (Ptr 6%positive) [2].
Definition ls_one : Tensor := mkTensor (Ptr 7%positive) [2].
(** a tensor without elements, and a one-element bias *)
Definition empty : Tensor := mkTensor (Ptr 8%positive) [0].
Definition bias_scalar : Tensor := mkTensor (Ptr 9%positive) [1].
End Ex.

(** ** Further example operands *)

Module Ex2.
(** a bias without storage, and the memory after scaleA[1] := 5 *)
Definition null_bias : Tensor := mkTensor nullptr [2].
Definition scalar_three : Tensor := mkTensor (Ptr 10%positive) [].
Definition mem : Memory Z :=
  <[10%positive := [3]]> Ex.mem.
End Ex2.

(** * Lemmas *)

(** ** Facts about argument construction *)

Section ArgsFacts.
Variables (ElementD : Element) (ed : EpilogueDescriptorT).

Lemma args_from_tensor_ColOrScalarLoad T tensor :
  ScaledEpilogueBase.args_from_tensor ed
    (ScaledEpilogueBase.ColOrScalarLoad ed T) T tensor
  = Some (scale_args tensor).
Proof.
  unfold ScaledEpilogueBase.args_from_tensor.
  rewrite decide_True by (left; reflexivity). reflexivity.
Qed.

Lemma args_from_tensor_RowOrScalarLoad T tensor :
  ScaledEpilogueBase.args_from_tensor ed
    (ScaledEpilogueBase.RowOrScalarLoad ed T) T tensor
  = Some (scale_args tensor).
Proof.
  unfold ScaledEpilogueBase.args_from_tensor.
  rewrite decide_True by (right; reflexivity). reflexivity.
Qed.

Lemma args_from_tensor_RowLoad T tensor :
  ScaledEpilogueBase.args_from_tensor ed
    (ScaledEpilogueBase.RowLoad ed T false) T tensor
  = Some (vector_args tensor).
Proof.
  unfold ScaledEpilogueBase.args_from_tensor.
  rewrite decide_False by (intros [?|?]; discriminate).
  rewrite decide_True by (split; discriminate).
  cbn. rewrite decide_True by reflexivity. reflexivity.
Qed.

Lemma args_from_tensor_ColLoad T tensor :
  ScaledEpilogueBase.args_from_tensor ed
    (ScaledEpilogueBase.ColLoad ed T false) T tensor
  = Some (vector_args tensor).
Proof.
  unfold ScaledEpilogueBase.args_from_tensor.
  rewrite decide_False by (intros [?|?]; discriminate).
  rewrite decide_True by (split; discriminate).
  cbn. rewrite decide_True by reflexivity. reflexivity.
Qed.

(** The [static_assert] of the tensor overload: a descriptor that enables
    the null pointer does not compile with it. *)
Lemma args_from_tensor_nullable_rejected T tensor :
  ScaledEpilogueBase.args_from_tensor ed
    (ScaledEpilogueBase.RowLoad ed T true) T tensor = None
  ∧ ScaledEpilogueBase.args_from_tensor ed
      (ScaledEpilogueBase.ColLoad ed T true) T tensor = None.
Proof.
  unfold ScaledEpilogueBase.args_from_tensor. split.
  - rewrite decide_False by (intros [?|?]; discriminate).
    rewrite decide_False by (intros [_ H]; apply H; reflexivity).
    reflexivity.
  - rewrite decide_False by (intros [?|?]; discriminate).
    rewrite decide_False by (intros [H _]; apply H; reflexivity).
    reflexivity.
Qed.

(** A whole tree as descriptor: the braces of the nested structs are
    left out, the data pointer lands in the first load of the tree and
    every other member is value-initialised. *)
Lemma args_from_tensor_tree tensor :
  ScaledEpilogueBase.args_from_tensor ed
    (ScaledEpilogue.EVTCompute ElementD ed) float tensor
  = Some (Sm90EVT_Arguments
            [OrScalarBroadcast_Arguments (data_ptr tensor) true;
             Sm90EVT_Arguments
               [OrScalarBroadcast_Arguments nullptr true;
                Sm90AccFetch_Arguments; Sm90Compute_Arguments];
             Sm90Compute_Arguments]).
Proof.
  unfold ScaledEpilogueBase.args_from_tensor.
  rewrite decide_False by (intros [?|?]; discriminate).
  rewrite decide_True by (split; discriminate).
  reflexivity.
Qed.

(** The accumulator fetch and a compute node have no member for the
    pointer. *)
Lemma args_from_tensor_no_member T tensor Fn Out Cmp Round :
  ScaledEpilogueBase.args_from_tensor ed Sm90AccFetch T tensor = None
  ∧ ScaledEpilogueBase.args_from_tensor ed
      (Sm90Compute Fn Out Cmp Round) T tensor = None.
Proof.
  unfold ScaledEpilogueBase.args_from_tensor.
  split; rewrite decide_False by (intros [?|?]; discriminate);
    rewrite decide_True by (split; discriminate); reflexivity.
Qed.

(** The argument block each variant builds, written out. *)
Lemma Scaled_prepare_args a_scales b_scales :
  ScaledEpilogue.prepare_args ElementD ed a_scales b_scales
  = Some (Sm90EVT_Arguments
            [scale_args a_scales; evt0_block b_scales;
             Sm90Compute_Arguments]).
Proof.
  unfold ScaledEpilogue.prepare_args, ScaledEpilogue.ScaleA,
    ScaledEpilogue.ScaleB.
  rewrite args_from_tensor_ColOrScalarLoad,
    args_from_tensor_RowOrScalarLoad.
  reflexivity.
Qed.

Lemma ScaledBias_prepare_args a_scales b_scales bias :
  ScaledEpilogueBias.prepare_args ElementD ed a_scales b_scales bias
  = Some (Sm90EVT_Arguments
            [scale_args a_scales; evt0_block b_scales;
             vector_args bias; Sm90Compute_Arguments]).
Proof.
  unfold ScaledEpilogueBias.prepare_args, ScaledEpilogueBias.ScaleA,
    ScaledEpilogueBias.ScaleB, ScaledEpilogueBias.Bias.
  rewrite args_from_tensor_ColOrScalarLoad,
    args_from_tensor_RowOrScalarLoad, args_from_tensor_RowLoad.
  reflexivity.
Qed.

Lemma ScaledLs_prepare_args a_scales b_scales ls :
  ScaledEpilogueLs.prepare_args ElementD ed a_scales b_scales ls
  = Some (Sm90EVT_Arguments
            [vector_args ls;
             Sm90EVT_Arguments
               [scale_args a_scales; evt0_block b_scales;
                Sm90Compute_Arguments];
             Sm90Compute_Arguments]).
Proof.
  unfold ScaledEpilogueLs.prepare_args, ScaledEpilogueLs.ScaleA,
    ScaledEpilogueLs.ScaleB, ScaledEpilogueLs.Ls.
  rewrite args_from_tensor_ColOrScalarLoad,
    args_from_tensor_RowOrScalarLoad, args_from_tensor_RowLoad.
  reflexivity.
Qed.

Lemma ScaledBiasLs_prepare_args a_scales b_scales bias ls :
  ScaledEpilogueBiasLs.prepare_args ElementD ed a_scales b_scales bias ls
  = Some (Sm90EVT_Arguments
            [vector_args ls;
             Sm90EVT_Arguments
               [scale_args a_scales; evt0_block b_scales;
                vector_args bias; Sm90Compute_Arguments];
             Sm90Compute_Arguments]).
Proof.
  unfold ScaledEpilogueBiasLs.prepare_args, ScaledEpilogueBiasLs.ScaleA,
    ScaledEpilogueBiasLs.ScaleB, ScaledEpilogueBiasLs.Bias,
    ScaledEpilogueBiasLs.Ls.
  rewrite args_from_tensor_ColOrScalarLoad,
    args_from_tensor_RowOrScalarLoad, !args_from_tensor_RowLoad.
  reflexivity.
Qed.
End ArgsFacts.

(** ** Facts about evaluation *)

Section VisitFacts.
Context {num : Type} `{!Numeric num}.
Variables (ElementAcc ElementD : Element) (ed : EpilogueDescriptorT).

Lemma convert_same T r (x : num) : convert T T r x = x.
Proof. unfold convert. rewrite decide_True; reflexivity. Qed.

Lemma crd2idx_M m n l : crd2idx (m, n, l) (mkStride 1 0 0) = m.
Proof. cbn. lia. Qed.

Lemma crd2idx_N m n l : crd2idx (m, n, l) (mkStride 0 1 0) = n.
Proof. cbn. lia. Qed.

(** ScaleA is read by row, ScaleB by column, unless it is a scalar. *)
Lemma visit_ColOrScalarLoad T tensor (mem : Memory num) acc m n l ins :
  visit ElementAcc (ScaledEpilogueBase.ColOrScalarLoad ed T)
    (scale_args tensor) mem acc (m, n, l) ins
  = scale_value mem tensor m.
Proof.
  unfold ScaledEpilogueBase.ColOrScalarLoad, scale_args, scale_value.
  cbn [visit]. rewrite crd2idx_M.
  destruct (numel tensor =? 1); reflexivity.
Qed.

Lemma visit_RowOrScalarLoad T tensor (mem : Memory num) acc m n l ins :
  visit ElementAcc (ScaledEpilogueBase.RowOrScalarLoad ed T)
    (scale_args tensor) mem acc (m, n, l) ins
  = scale_value mem tensor n.
Proof.
  unfold ScaledEpilogueBase.RowOrScalarLoad, scale_args, scale_value.
  cbn [visit]. rewrite crd2idx_N.
  destruct (numel tensor =? 1); reflexivity.
Qed.

(** Bias and Ls are read by column, whatever their element count. *)
Lemma visit_RowLoad T tensor (mem : Memory num) acc m n l ins :
  visit ElementAcc (ScaledEpilogueBase.RowLoad ed T false)
    (vector_args tensor) mem acc (m, n, l) ins
  = channel_value mem tensor n.
Proof.
  unfold ScaledEpilogueBase.RowLoad, vector_args, channel_value.
  cbn [visit andb]. rewrite crd2idx_N.
  destruct (load mem (data_ptr tensor) n); cbn;
    rewrite ?convert_same; reflexivity.
Qed.

(** Trees of two and of three children. *)
Lemma visit_EVT2 node c0 c1 a0 a1 an (mem : Memory num) acc c ins :
  visit ElementAcc (Sm90EVT node [c0; c1])
    (Sm90EVT_Arguments [a0; a1; an]) mem acc c ins
  = x0 ← visit ElementAcc c0 a0 mem acc c [];
    x1 ← visit ElementAcc c1 a1 mem acc c [];
    visit ElementAcc node an mem acc c
      [(ElementOutput_of ElementAcc c0, x0);
       (ElementOutput_of ElementAcc c1, x1)].
Proof. reflexivity. Qed.

Lemma visit_EVT3 node c0 c1 c2 a0 a1 a2 an (mem : Memory num) acc c ins :
  visit ElementAcc (Sm90EVT node [c0; c1; c2])
    (Sm90EVT_Arguments [a0; a1; a2; an]) mem acc c ins
  = x0 ← visit ElementAcc c0 a0 mem acc c [];
    x1 ← visit ElementAcc c1 a1 mem acc c [];
    x2 ← visit ElementAcc c2 a2 mem acc c [];
    visit ElementAcc node an mem acc c
      [(ElementOutput_of ElementAcc c0, x0);
       (ElementOutput_of ElementAcc c1, x1);
       (ElementOutput_of ElementAcc c2, x2)].
Proof. reflexivity. Qed.

(** The innermost tree: [scaleB * Acc], computed and kept in float. *)
Lemma visit_EVTCompute0 b_scales (mem : Memory num) acc m n l ins :
  visit ElementAcc
    (Sm90EVT (Sm90Compute multiplies float float round_to_nearest)
       [ScaledEpilogueBase.RowOrScalarLoad ed float; Sm90AccFetch])
    (evt0_block b_scales) mem acc (m, n, l) ins
  = b ← scale_value mem b_scales n;
    Some (multiplies_op float b (to_float ElementAcc acc)).
Proof.
  unfold evt0_block. rewrite visit_EVT2, visit_RowOrScalarLoad.
  destruct (scale_value mem b_scales n); cbn;
    rewrite ?convert_same; reflexivity.
Qed.

(** Every variant evaluates its formula: on the block its [prepare_args]
    builds, the tree yields the variant's formula at each coordinate. *)
Lemma visit_buildArguments v scaleA scaleB bias multiplier args
    (mem : Memory num) acc m n l :
  buildArguments ElementD ed v scaleA scaleB bias multiplier = Some args →
  visit ElementAcc (variantEVT ElementD ed v) args mem acc (m, n, l) []
  = D_at ElementAcc ElementD v mem scaleA scaleB bias multiplier m n acc.
Proof.
  destruct v; cbn [buildArguments variantEVT D_at].
  - rewrite Scaled_prepare_args. intros [= <-].
    unfold ScaledEpilogue.EVTCompute, ScaledEpilogue.EVTCompute0,
      ScaledEpilogue.Compute0, ScaledEpilogue.ScaleA,
      ScaledEpilogue.ScaleB, ScaledEpilogue.Accum,
      ScaledEpilogueBase.Accum.
    rewrite visit_EVT2, visit_ColOrScalarLoad, visit_EVTCompute0.
    destruct (scale_value mem scaleA m); [|reflexivity].
    destruct (scale_value mem scaleB n); [|reflexivity].
    cbn. rewrite !convert_same. reflexivity.
  - rewrite ScaledBias_prepare_args. intros [= <-].
    unfold ScaledEpilogueBias.EVTCompute, ScaledEpilogueBias.EVTCompute0,
      ScaledEpilogueBias.Compute0, ScaledEpilogueBias.ScaleA,
      ScaledEpilogueBias.ScaleB, ScaledEpilogueBias.Accum,
      ScaledEpilogueBias.Bias, ScaledEpilogueBase.Accum.
    rewrite visit_EVT3, visit_ColOrScalarLoad, visit_EVTCompute0,
      visit_RowLoad.
    destruct (scale_value mem scaleA m); [|reflexivity].
    destruct (scale_value mem scaleB n); [|reflexivity].
    destruct (channel_value mem bias n); [|reflexivity].
    cbn. rewrite !convert_same. reflexivity.
  - rewrite ScaledLs_prepare_args. intros [= <-].
    unfold ScaledEpilogueLs.EVTCompute, ScaledEpilogueLs.EVTCompute1,
      ScaledEpilogueLs.EVTCompute0, ScaledEpilogueLs.Compute0,
      ScaledEpilogueLs.ScaleA, ScaledEpilogueLs.ScaleB,
      ScaledEpilogueLs.Accum, ScaledEpilogueLs.Ls,
      ScaledEpilogueBase.Accum.
    rewrite !visit_EVT2, visit_ColOrScalarLoad, visit_EVTCompute0,
      visit_RowLoad.
    destruct (channel_value mem multiplier n); [|reflexivity].
    destruct (scale_value mem scaleA m); [|reflexivity].
    destruct (scale_value mem scaleB n); [|reflexivity].
    cbn. rewrite !convert_same. reflexivity.
  - rewrite ScaledBiasLs_prepare_args. intros [= <-].
    unfold ScaledEpilogueBiasLs.EVTCompute,
      ScaledEpilogueBiasLs.EVTCompute1, ScaledEpilogueBiasLs.EVTCompute0,
      ScaledEpilogueBiasLs.Compute0, ScaledEpilogueBiasLs.ScaleA,
      ScaledEpilogueBiasLs.ScaleB, ScaledEpilogueBiasLs.Accum,
      ScaledEpilogueBiasLs.Bias, ScaledEpilogueBiasLs.Ls,
      ScaledEpilogueBase.Accum.
    rewrite visit_EVT2, visit_EVT3, visit_ColOrScalarLoad,
      visit_EVTCompute0, !visit_RowLoad.
    destruct (channel_value mem multiplier n); [|reflexivity].
    destruct (scale_value mem scaleA m); [|reflexivity].
    destruct (scale_value mem scaleB n); [|reflexivity].
    destruct (channel_value mem bias n); [|reflexivity].
    cbn. rewrite !convert_same. reflexivity.
Qed.
End VisitFacts.

(** ** Facts about tiles *)

Section TileFacts.
Context {A B : Type}.

(** Two element functions that agree on the elements of the list give the
    same result. *)
Lemma imapM_ext (f g : nat → A → option B) i (l : list A) :
  (∀ k x, l !! k = Some x → f (i + k)%nat x = g (i + k)%nat x) →
  imapM f i l = imapM g i l.
Proof.
  revert i. induction l as [|x l IH]; intros i Hfg; [reflexivity|].
  cbn [imapM].
  pose proof (Hfg 0%nat x eq_refl) as H0. rewrite Nat.add_0_r in H0.
  rewrite <- H0.
  destruct (f i x); [|reflexivity]. cbn.
  rewrite (IH (S i)); [reflexivity|].
  intros k y Hk. specialize (Hfg (S k) y Hk).
  replace (S i + k)%nat with (i + S k)%nat by lia. exact Hfg.
Qed.

(** When every element has a result, the results are the indexed map. *)
Lemma imapM_Some (f : nat → A → option B) (g : nat → A → B) i (l : list A) :
  (∀ k x, l !! k = Some x → f (i + k)%nat x = Some (g (i + k)%nat x)) →
  imapM f i l = Some (imap (λ k, g (i + k)%nat) l).
Proof.
  revert i. induction l as [|x l IH]; intros i Hf; [reflexivity|].
  cbn [imapM imap].
  pose proof (Hf 0%nat x eq_refl) as H0. rewrite Nat.add_0_r in H0.
  rewrite H0. cbn.
  rewrite (IH (S i)).
  - cbn. rewrite Nat.add_0_r. do 2 f_equal.
    apply imap_ext. intros k y _. cbn. f_equal. lia.
  - intros k y Hk. specialize (Hf (S k) y Hk).
    replace (S i + k)%nat with (i + S k)%nat by lia. exact Hf.
Qed.

(** Each entry of the result is the value of the entry at that index. *)
Lemma imapM_lookup (f : nat → A → option B) i (l : list A) ys k x :
  imapM f i l = Some ys → l !! k = Some x →
  ∃ y, f (i + k)%nat x = Some y ∧ ys !! k = Some y.
Proof.
  revert i ys k. induction l as [|z l IH]; intros i ys k Hys Hk;
    [discriminate|].
  cbn [imapM] in Hys.
  destruct (f i z) as [y|] eqn:Hy; [|discriminate]. cbn in Hys.
  destruct (imapM f (S i) l) as [ys'|] eqn:Hys'; [|discriminate].
  cbn in Hys. injection Hys as <-.
  destruct k as [|k]; cbn in Hk |- *.
  - injection Hk as <-. rewrite Nat.add_0_r. eauto.
  - replace (i + S k)%nat with (S i + k)%nat by lia. eauto.
Qed.

Lemma imapM_length (f : nat → A → option B) i (l : list A) ys :
  imapM f i l = Some ys → length ys = length l.
Proof.
  revert i ys. induction l as [|z l IH]; intros i ys Hys.
  - injection Hys as <-. reflexivity.
  - cbn [imapM] in Hys.
    destruct (f i z) as [y|]; [|discriminate]. cbn in Hys.
    destruct (imapM f (S i) l) as [ys'|] eqn:Hys'; [|discriminate].
    cbn in Hys. injection Hys as <-. cbn. f_equal. eauto.
Qed.

(** The whole list has a result as soon as every element has one. *)
Lemma imapM_is_Some (f : nat → A → option B) i (l : list A) :
  (∀ k x, l !! k = Some x → is_Some (f (i + k)%nat x)) →
  is_Some (imapM f i l).
Proof.
  revert i. induction l as [|z l IH]; intros i Hf; [cbn; eauto|].
  cbn [imapM].
  destruct (Hf 0%nat z eq_refl) as [y Hy]. rewrite Nat.add_0_r in Hy.
  rewrite Hy. cbn.
  destruct (IH (S i)) as [ys Hys].
  - intros k x Hk. replace (S i + k)%nat with (i + S k)%nat by lia.
    apply Hf. exact Hk.
  - rewrite Hys. cbn. eauto.
Qed.
End TileFacts.

Section EvaluateFacts.
Context {num : Type} `{!Numeric num}.

(** Two launches that agree at every coordinate of the tile agree on the
    whole tile. *)
Lemma evaluateEpilogue_ext Acc1 op1 args1 (mem1 : Memory num)
    Acc2 op2 args2 (mem2 : Memory num) l tile :
  (∀ m n row acc, tile !! m = Some row → row !! n = Some acc →
     visit Acc1 op1 args1 mem1 acc (m, n, l) []
     = visit Acc2 op2 args2 mem2 acc (m, n, l) []) →
  evaluateEpilogue Acc1 op1 args1 mem1 l tile
  = evaluateEpilogue Acc2 op2 args2 mem2 l tile.
Proof.
  intros H. unfold evaluateEpilogue.
  apply imapM_ext. intros m row Hrow. cbn.
  apply imapM_ext. intros n acc Hacc. cbn. eauto.
Qed.

(** A launch every element of which has the value [g m n acc]. *)
Lemma evaluateEpilogue_Some Acc op args (mem : Memory num) l tile
    (g : nat → nat → num → num) :
  (∀ m n row acc, tile !! m = Some row → row !! n = Some acc →
     visit Acc op args mem acc (m, n, l) [] = Some (g m n acc)) →
  evaluateEpilogue Acc op args mem l tile
  = Some (imap (λ m row, imap (λ n acc, g m n acc) row) tile).
Proof.
  intros H. unfold evaluateEpilogue.
  rewrite (imapM_Some _ (λ m row, imap (λ n acc, g m n acc) row));
    [reflexivity|].
  intros m row Hrow. cbn.
  rewrite (imapM_Some _ (λ n acc, g m n acc)); [reflexivity|].
  intros n acc Hacc. cbn. eauto.
Qed.

(** The element of the output tile at (m, n) is the tree's value there. *)
Lemma evaluateEpilogue_lookup Acc op args (mem : Memory num) l tile out
    m n row acc :
  evaluateEpilogue Acc op args mem l tile = Some out →
  tile !! m = Some row → row !! n = Some acc →
  ∃ d, visit Acc op args mem acc (m, n, l) [] = Some d
       ∧ out !! m ≫= (.!! n) = Some d.
Proof.
  unfold evaluateEpilogue. intros Hout Hrow Hacc.
  destruct (imapM_lookup _ _ _ _ _ _ Hout Hrow) as (orow & Ho & Hm).
  cbn in Ho.
  destruct (imapM_lookup _ _ _ _ _ _ Ho Hacc) as (d & Hd & Hn).
  cbn in Hd. exists d. rewrite Hm. cbn. auto.
Qed.

(** Row [m] of the output tile is the tree mapped over row [m]. *)
Lemma evaluateEpilogue_row Acc op args (mem : Memory num) l tile out m row :
  evaluateEpilogue Acc op args mem l tile = Some out →
  tile !! m = Some row →
  ∃ orow, out !! m = Some orow
          ∧ imapM (λ n acc, visit Acc op args mem acc (m, n, l) []) 0 row
            = Some orow.
Proof.
  unfold evaluateEpilogue. intros Hout Hrow.
  destruct (imapM_lookup _ _ _ _ _ _ Hout Hrow) as (orow & Ho & Hm).
  eauto.
Qed.

(** Outside the tile the output has no element. *)
Lemma evaluateEpilogue_lookup_None Acc op args (mem : Memory num) l tile
    out m n :
  evaluateEpilogue Acc op args mem l tile = Some out →
  tile !! m ≫= (.!! n) = None →
  out !! m ≫= (.!! n) = None.
Proof.
  intros Hout Hnone.
  destruct (tile !! m) as [row|] eqn:Hrow.
  - destruct (evaluateEpilogue_row _ _ _ _ _ _ _ _ _ Hout Hrow)
      as (orow & -> & Ho).
    cbn in Hnone |- *. apply lookup_ge_None.
    rewrite (imapM_length _ _ _ _ Ho). apply lookup_ge_None. exact Hnone.
  - unfold evaluateEpilogue in Hout. apply imapM_length in Hout.
    apply lookup_ge_None in Hrow.
    rewrite (proj2 (lookup_ge_None out m)) by lia. reflexivity.
Qed.

(** A launch has a result as soon as every element has one. *)
Lemma evaluateEpilogue_is_Some Acc op args (mem : Memory num) l tile :
  (∀ m n row acc, tile !! m = Some row → row !! n = Some acc →
     is_Some (visit Acc op args mem acc (m, n, l) [])) →
  is_Some (evaluateEpilogue Acc op args mem l tile).
Proof.
  intros H. unfold evaluateEpilogue.
  apply imapM_is_Some. intros m row Hrow. cbn.
  apply imapM_is_Some. intros n acc Hacc. cbn. eauto.
Qed.

(** Reading after an entry was overwritten. *)
Lemma load_tensor_data (mem : Memory num) tensor k :
  load mem (data_ptr tensor) k = tensor_data mem tensor ≫= (.!! k).
Proof. unfold load, tensor_data. destruct (data_ptr tensor); reflexivity. Qed.

Lemma load_set_entry_ne_ptr (mem : Memory num) tensor i x p k :
  p ≠ data_ptr tensor →
  load (set_entry mem tensor i x) p k = load mem p k.
Proof.
  unfold set_entry, load. intros Hp.
  destruct (data_ptr tensor) as [|b]; [reflexivity|].
  destruct p as [|b']; [reflexivity|].
  rewrite lookup_alter_ne by congruence. reflexivity.
Qed.

Lemma load_set_entry_ne_index (mem : Memory num) tensor i x k :
  k ≠ i →
  load (set_entry mem tensor i x) (data_ptr tensor) k
  = load mem (data_ptr tensor) k.
Proof.
  unfold set_entry, load. intros Hk.
  destruct (data_ptr tensor) as [|b]; [reflexivity|].
  rewrite lookup_alter_eq.
  destruct (mem !! b) as [data|]; [|reflexivity]. cbn.
  apply list_lookup_insert_ne. congruence.
Qed.
Lemma load_set_entry_is_Some (mem : Memory num) tensor i x p k :
  is_Some (load mem p k) → is_Some (load (set_entry mem tensor i x) p k).
Proof.
  unfold set_entry, load.
  destruct (data_ptr tensor) as [|b]; [auto|].
  destruct p as [|b']; [auto|].
  destruct (decide (b = b')) as [<-|Hb].
  - rewrite lookup_alter_eq.
    destruct (mem !! b) as [data|]; cbn; [|auto].
    rewrite !lookup_lt_is_Some, length_insert. auto.
  - rewrite lookup_alter_ne by exact Hb. auto.
Qed.
End EvaluateFacts.

(** ** Overwriting one entry of an operand *)

Section FrameFacts.
Context {num : Type} `{!Numeric num}.
Variables (ElementAcc ElementD : Element).

Lemma scale_value_set_entry_ne (mem : Memory num) tensor i x t k :
  data_ptr t ≠ data_ptr tensor →
  scale_value (set_entry mem tensor i x) t k = scale_value mem t k.
Proof. intros. unfold scale_value. apply load_set_entry_ne_ptr. auto. Qed.

Lemma channel_value_set_entry_ne (mem : Memory num) tensor i x t k :
  data_ptr t ≠ data_ptr tensor →
  channel_value (set_entry mem tensor i x) t k = channel_value mem t k.
Proof. intros. unfold channel_value. apply load_set_entry_ne_ptr. auto. Qed.

(** A vector scale: the entries other than [i] are read as before. *)
Lemma scale_value_set_entry_index (mem : Memory num) tensor i x k :
  numel tensor ≠ 1 → k ≠ i →
  scale_value (set_entry mem tensor i x) tensor k
  = scale_value mem tensor k.
Proof.
  intros Hn Hk. unfold scale_value.
  destruct (numel tensor =? 1) eqn:E; [lia|].
  apply load_set_entry_ne_index. exact Hk.
Qed.

Lemma scale_value_set_entry_is_Some (mem : Memory num) tensor i x t k :
  is_Some (scale_value mem t k) →
  is_Some (scale_value (set_entry mem tensor i x) t k).
Proof. apply load_set_entry_is_Some. Qed.

Lemma channel_value_set_entry_is_Some (mem : Memory num) tensor i x t k :
  is_Some (channel_value mem t k) →
  is_Some (channel_value (set_entry mem tensor i x) t k).
Proof. apply load_set_entry_is_Some. Qed.

(** Overwriting an entry never takes a result away. *)
Lemma D_at_set_entry_is_Some v (mem : Memory num) a b bias ls tensor i x
    m n acc :
  is_Some (D_at ElementAcc ElementD v mem a b bias ls m n acc) →
  is_Some (D_at ElementAcc ElementD v (set_entry mem tensor i x)
             a b bias ls m n acc).
Proof.
  pose proof (scale_value_set_entry_is_Some mem tensor i x a m) as Ha.
  pose proof (scale_value_set_entry_is_Some mem tensor i x b n) as Hb.
  pose proof (channel_value_set_entry_is_Some mem tensor i x bias n) as Hc.
  pose proof (channel_value_set_entry_is_Some mem tensor i x ls n) as Hl.
  destruct v; cbn [D_at];
    destruct (scale_value mem a m); try (intros [? [=]]; fail);
    destruct (scale_value mem b n); try (intros [? [=]]; fail);
    try (destruct (channel_value mem bias n); try (intros [? [=]]; fail));
    try (destruct (channel_value mem ls n); try (intros [? [=]]; fail));
    try (destruct Ha as [? ->]; [eauto|]);
    try (destruct Hb as [? ->]; [eauto|]);
    try (destruct Hc as [? ->]; [eauto|]);
    try (destruct Hl as [? ->]; [eauto|]);
    cbn; eauto.
Qed.

(** The operands of a variant lie apart from one of them. *)
Lemma operands_apart v a b bias ls :
  NoDup (data_ptr <$> operands v a b bias ls) →
  data_ptr a ≠ data_ptr b
  ∧ (has_bias v = true →
     data_ptr bias ≠ data_ptr a ∧ data_ptr bias ≠ data_ptr b)
  ∧ (has_multiplier v = true →
     data_ptr ls ≠ data_ptr a ∧ data_ptr ls ≠ data_ptr b).
Proof.
  unfold operands. intros Hnd.
  destruct v; cbn in Hnd |- *;
    repeat (apply NoDup_cons in Hnd as [? Hnd]);
    repeat split; intros; try discriminate; set_solver.
Qed.

(** Changing entry [i] of a vector scaleA leaves the rows other than [i]
    as they were. *)
Lemma D_at_set_entry_scaleA v (mem : Memory num) a b bias ls i x m n acc :
  NoDup (data_ptr <$> operands v a b bias ls) →
  numel a ≠ 1 → m ≠ i →
  D_at ElementAcc ElementD v (set_entry mem a i x) a b bias ls m n acc
  = D_at ElementAcc ElementD v mem a b bias ls m n acc.
Proof.
  intros Hnd Hn Hm.
  destruct (operands_apart _ _ _ _ _ Hnd) as (Hab & Hbias & Hls).
  destruct v; cbn [D_at];
    rewrite ?(scale_value_set_entry_index mem a i x m Hn Hm),
      ?(scale_value_set_entry_ne mem a i x b n) by congruence;
    try (rewrite (channel_value_set_entry_ne mem a i x bias n)
           by (apply Hbias; reflexivity));
    try (rewrite (channel_value_set_entry_ne mem a i x ls n)
           by (apply Hls; reflexivity));
    reflexivity.
Qed.

(** Changing entry [j] of a vector scaleB leaves the columns other than
    [j] as they were. *)
Lemma D_at_set_entry_scaleB v (mem : Memory num) a b bias ls j x m n acc :
  NoDup (data_ptr <$> operands v a b bias ls) →
  numel b ≠ 1 → n ≠ j →
  D_at ElementAcc ElementD v (set_entry mem b j x) a b bias ls m n acc
  = D_at ElementAcc ElementD v mem a b bias ls m n acc.
Proof.
  intros Hnd Hn Hm.
  destruct (operands_apart _ _ _ _ _ Hnd) as (Hab & Hbias & Hls).
  destruct v; cbn [D_at];
    rewrite ?(scale_value_set_entry_index mem b j x n Hn Hm),
      ?(scale_value_set_entry_ne mem b j x a m) by congruence;
    try (rewrite (channel_value_set_entry_ne mem b j x bias n)
           by (apply Hbias; reflexivity));
    try (rewrite (channel_value_set_entry_ne mem b j x ls n)
           by (apply Hls; reflexivity));
    reflexivity.
Qed.
End FrameFacts.

(** ** Units *)

#[global] Instance ExactUnits_Z : ExactUnits Z 1 0.
Proof. split; intros; cbn; lia. Qed.

Section UnitFacts.
Context {num : Type} `{!Numeric num} {one zero : num}.
Context `{!ExactUnits num one zero}.
Variables (ElementAcc ElementD : Element).

Lemma to_float_zero S : to_float S zero = zero.
Proof.
  unfold to_float, convert. case_decide; [reflexivity|apply convert_zero].
Qed.

Lemma to_float_one S : to_float S one = one.
Proof.
  unfold to_float, convert. case_decide; [reflexivity|apply convert_one].
Qed.

(** A zero bias, or a multiplier one, drops out of the formula. *)
Lemma D_ScaledBias_zero a b acc :
  D_ScaledBias ElementAcc ElementD a b zero acc
  = D_Scaled ElementAcc ElementD a b acc.
Proof.
  unfold D_ScaledBias, D_Scaled.
  rewrite to_float_zero, multiply_add_zero. reflexivity.
Qed.

Lemma D_ScaledLs_one a b acc :
  D_ScaledLs ElementAcc ElementD a b one acc
  = D_Scaled ElementAcc ElementD a b acc.
Proof.
  unfold D_ScaledLs, D_Scaled.
  rewrite to_float_one, multiplies_one_l. reflexivity.
Qed.

Lemma D_ScaledBiasLs_zero_one a b acc :
  D_ScaledBiasLs ElementAcc ElementD a b zero one acc
  = D_Scaled ElementAcc ElementD a b acc.
Proof.
  unfold D_ScaledBiasLs, D_Scaled.
  rewrite to_float_zero, to_float_one, multiply_add_zero, multiplies_one_l.
  reflexivity.
Qed.

(** Unit scales leave the accumulator as it is. *)
Lemma D_Scaled_one acc :
  D_Scaled ElementAcc ElementD one one acc = cast_acc ElementAcc ElementD acc.
Proof.
  unfold D_Scaled, cast_acc. rewrite !multiplies_one_l. reflexivity.
Qed.

(** Reading a constant vector, and a one-element tensor. *)
Lemma channel_value_replicate (mem : Memory num) tensor width c n :
  tensor_data mem tensor = Some (replicate width c) →
  (n < width)%nat →
  channel_value mem tensor n = Some c.
Proof.
  intros Hdata Hn. unfold channel_value.
  rewrite load_tensor_data, Hdata. cbn.
  apply lookup_replicate_2. exact Hn.
Qed.

Lemma scale_value_scalar (mem : Memory num) tensor c i :
  numel tensor = 1 →
  tensor_data mem tensor = Some [c] →
  scale_value mem tensor i = Some c.
Proof.
  intros Hn Hdata. unfold scale_value.
  rewrite Hn, load_tensor_data, Hdata. reflexivity.
Qed.
End UnitFacts.

(** Every coordinate of a tile lies below a bound on the row lengths. *)
Lemma tile_column_bound {A : Type} (tile : list (list A)) width m n row x :
  Forall (λ row, (length row ≤ width)%nat) tile →
  tile !! m = Some row → row !! n = Some x → (n < width)%nat.
Proof.
  intros Hall Hrow Hx.
  pose proof (Forall_lookup_1 _ _ _ _ Hall Hrow) as Hlen. cbn in Hlen.
  apply lookup_lt_Some in Hx. lia.
Qed.

(** * The claims *)

(** C1. The ScaledBiasLs variant computes
    D = L * (scaleA * (scaleB * Acc) + bias) at every output coordinate:
    scaleB meets the accumulator first, then scaleA, then the bias is
    added, and the multiplier L comes last, so the bias is inside the
    outer multiplication.  In exact arithmetic this equals
    L * (scaleA * scaleB * Acc) + bias only when the bias is 0 or L is 1;
    on the tile [[1,2],[3,4]] with scaleA [2,3], scaleB [10,100], bias
    [1,1] and multiplier [2,1] the output is [[42,401],[182,1201]], where
    the other formula would give 41 and 181 in column 0. *)
Theorem C1_ScaledBiasLs_bias_inside_multiplier :
  (∀ (num : Type) (N : Numeric num) ElementAcc ElementD ed
     a_scales b_scales bias ls (mem : Memory num) acc m n l,
     (args ← ScaledEpilogueBiasLs.prepare_args
               ElementD ed a_scales b_scales bias ls;
      visit ElementAcc (ScaledEpilogueBiasLs.EVTCompute ElementD ed) args
        mem acc (m, n, l) [])
     = (L ← channel_value mem ls n;
        a ← scale_value mem a_scales m;
        b ← scale_value mem b_scales n;
        c ← channel_value mem bias n;
        Some (D_ScaledBiasLs ElementAcc ElementD a b c L acc)))
  ∧ (∀ a b c L acc : Z,
       D_ScaledBiasLs int32_t half_t a b c L acc = L * (a * (b * acc) + c))
  ∧ (∀ a b c L acc : Z,
       D_ScaledBiasLs int32_t half_t a b c L acc = L * (a * (b * acc)) + c
       ↔ c = 0 ∨ L = 1)
  ∧ (args ← ScaledEpilogueBiasLs.prepare_args
              half_t Ex.ed Ex.a_scales Ex.b_scales Ex.bias Ex.ls;
     evaluateEpilogue int32_t (ScaledEpilogueBiasLs.EVTCompute half_t Ex.ed)
       args Ex.mem 0 [[1; 2]; [3; 4]])
    = Some [[42; 401]; [182; 1201]].
Proof.
  split; [|split; [|split]].
  - intros. rewrite ScaledBiasLs_prepare_args. cbn [mbind option_bind].
    apply (visit_buildArguments ElementAcc ElementD ed ScaledBiasLs).
    apply ScaledBiasLs_prepare_args.
  - reflexivity.
  - intros a b c L acc.
    change (D_ScaledBiasLs int32_t half_t a b c L acc)
      with (L * (a * (b * acc) + c)).
    split.
    + intros H. destruct (decide (c = 0)) as [|Hc]; [left; assumption|].
      right. nia.
    + intros [-> | ->]; lia.
  - vm_compute. reflexivity.
Qed.

(** C2. For either scale operand, in every variant, argument construction
    looks at the element count of the tensor: the block it builds holds
    the tensor's data pointer itself and a broadcast flag that is cleared
    exactly when the count is 1.  With the flag cleared the tree reads the
    single value [ptr[0]] at every coordinate, whatever the row or column;
    with any other count it reads the vector, scaleA by row and scaleB by
    column. *)
Theorem C2_scale_mode_from_element_count :
  ∀ (num : Type) (N : Numeric num) ElementAcc ElementD ed T,
    (∀ tensor,
       ScaledEpilogueBase.args_from_tensor ed
         (ScaledEpilogueBase.ColOrScalarLoad ed T) T tensor
       = Some (OrScalarBroadcast_Arguments
                 (data_ptr tensor) (negb (numel tensor =? 1)))
       ∧ ScaledEpilogueBase.args_from_tensor ed
           (ScaledEpilogueBase.RowOrScalarLoad ed T) T tensor
         = Some (OrScalarBroadcast_Arguments
                   (data_ptr tensor) (negb (numel tensor =? 1))))
    ∧ (∀ a b bias ls,
         ScaledEpilogue.prepare_args ElementD ed a b
         = Some (Sm90EVT_Arguments
                   [scale_args a; evt0_block b; Sm90Compute_Arguments])
         ∧ ScaledEpilogueBias.prepare_args ElementD ed a b bias
           = Some (Sm90EVT_Arguments
                     [scale_args a; evt0_block b; vector_args bias;
                      Sm90Compute_Arguments])
         ∧ ScaledEpilogueLs.prepare_args ElementD ed a b ls
           = Some (Sm90EVT_Arguments
                     [vector_args ls;
                      Sm90EVT_Arguments
                        [scale_args a; evt0_block b; Sm90Compute_Arguments];
                      Sm90Compute_Arguments])
         ∧ ScaledEpilogueBiasLs.prepare_args ElementD ed a b bias ls
           = Some (Sm90EVT_Arguments
                     [vector_args ls;
                      Sm90EVT_Arguments
                        [scale_args a; evt0_block b; vector_args bias;
                         Sm90Compute_Arguments];
                      Sm90Compute_Arguments]))
    ∧ (∀ tensor (mem : Memory num) acc m n l,
         visit ElementAcc (ScaledEpilogueBase.ColOrScalarLoad ed T)
           (scale_args tensor) mem acc (m, n, l) []
         = load mem (data_ptr tensor)
             (if numel tensor =? 1 then 0%nat else m)
         ∧ visit ElementAcc (ScaledEpilogueBase.RowOrScalarLoad ed T)
             (scale_args tensor) mem acc (m, n, l) []
           = load mem (data_ptr tensor)
               (if numel tensor =? 1 then 0%nat else n)).
Proof.
  intros num N Acc D ed T. split; [|split].
  - intros tensor. split.
    + apply args_from_tensor_ColOrScalarLoad.
    + apply args_from_tensor_RowOrScalarLoad.
  - intros a b bias ls.
    rewrite Scaled_prepare_args, ScaledBias_prepare_args,
      ScaledLs_prepare_args, ScaledBiasLs_prepare_args.
    repeat split.
  - intros tensor mem acc m n l. split.
    + apply visit_ColOrScalarLoad.
    + apply visit_RowOrScalarLoad.
Qed.

(** C3 fails as stated: a one-element bias (or Ls) tensor passes every
    [static_assert]; [prepare_args] returns a block that holds the tensor's
    data pointer as a vector operand.  On the 2x2 example the block then
    yields 2*10*1 + 5 at column 0 and reads past the single element at
    column 1. *)
Lemma C3_one_element_vector_operand_accepted :
  numel Ex.bias_scalar = 1
  ∧ ScaledEpilogueBias.prepare_args half_t Ex.ed
      Ex.a_scales Ex.b_scales Ex.bias_scalar
    = Some (Sm90EVT_Arguments
              [OrScalarBroadcast_Arguments (data_ptr Ex.a_scales) true;
               Sm90EVT_Arguments
                 [OrScalarBroadcast_Arguments (data_ptr Ex.b_scales) true;
                  Sm90AccFetch_Arguments; Sm90Compute_Arguments];
               Broadcast_Arguments (data_ptr Ex.bias_scalar);
               Sm90Compute_Arguments])
  ∧ is_Some (ScaledEpilogueLs.prepare_args half_t Ex.ed
               Ex.a_scales Ex.b_scales Ex.bias_scalar)
  ∧ is_Some (ScaledEpilogueBiasLs.prepare_args half_t Ex.ed
               Ex.a_scales Ex.b_scales Ex.bias_scalar Ex.bias_scalar)
  ∧ (args ← ScaledEpilogueBias.prepare_args half_t Ex.ed
              Ex.a_scales Ex.b_scales Ex.bias_scalar;
     visit int32_t (ScaledEpilogueBias.EVTCompute half_t Ex.ed) args
       Ex.mem 1 (0, 0, 0)%nat []) = Some 25
  ∧ (args ← ScaledEpilogueBias.prepare_args half_t Ex.ed
              Ex.a_scales Ex.b_scales Ex.bias_scalar;
     visit int32_t (ScaledEpilogueBias.EVTCompute half_t Ex.ed) args
       Ex.mem 2 (0, 1, 0)%nat []) = None.
Proof.
  repeat split; try (vm_compute; eauto; fail).
Qed.

(** C3, amended.  For a bias or Ls operand, argument construction does not
    look at the element count: the block holds the tensor's data pointer,
    whatever the count, and the tree reads it by column, never as a
    scalar.  What does not compile is a descriptor of the wrong kind: the
    tensor overload of [args_from_tensor] with a ColLoad or RowLoad that
    enables the null pointer, and the optional-tensor overload with one
    that does not. *)
Theorem C3_vector_operand_bound_without_count_check :
  ∀ (num : Type) (N : Numeric num) ElementAcc ElementD ed,
    (∀ a b bias ls,
       ScaledEpilogueBias.prepare_args ElementD ed a b bias
       = Some (Sm90EVT_Arguments
                 [scale_args a; evt0_block b;
                  Broadcast_Arguments (data_ptr bias);
                  Sm90Compute_Arguments])
       ∧ ScaledEpilogueLs.prepare_args ElementD ed a b ls
         = Some (Sm90EVT_Arguments
                   [Broadcast_Arguments (data_ptr ls);
                    Sm90EVT_Arguments
                      [scale_args a; evt0_block b; Sm90Compute_Arguments];
                    Sm90Compute_Arguments])
       ∧ ScaledEpilogueBiasLs.prepare_args ElementD ed a b bias ls
         = Some (Sm90EVT_Arguments
                   [Broadcast_Arguments (data_ptr ls);
                    Sm90EVT_Arguments
                      [scale_args a; evt0_block b;
                       Broadcast_Arguments (data_ptr bias);
                       Sm90Compute_Arguments];
                    Sm90Compute_Arguments]))
    ∧ (∀ tensor (mem : Memory num) acc m n l,
         visit ElementAcc (ScaledEpilogueBase.RowLoad ed ElementD false)
           (Broadcast_Arguments (data_ptr tensor)) mem acc (m, n, l) []
         = load mem (data_ptr tensor) n)
    ∧ (∀ T tensor,
         ScaledEpilogueBase.args_from_tensor ed
           (ScaledEpilogueBase.RowLoad ed T true) T tensor = None
         ∧ ScaledEpilogueBase.args_from_tensor ed
             (ScaledEpilogueBase.ColLoad ed T true) T tensor = None)
    ∧ (∀ T tensor,
         ScaledEpilogueBase.args_from_optional_tensor ed
           (ScaledEpilogueBase.RowLoad ed T false) T tensor = None
         ∧ ScaledEpilogueBase.args_from_optional_tensor ed
             (ScaledEpilogueBase.ColLoad ed T false) T tensor = None).
Proof.
  intros num N Acc D ed. split; [|split; [|split]].
  - intros a b bias ls.
    rewrite ScaledBias_prepare_args, ScaledLs_prepare_args,
      ScaledBiasLs_prepare_args.
    repeat split.
  - intros tensor mem acc m n l.
    apply (visit_RowLoad Acc ed D tensor mem acc m n l []).
  - intros T tensor. apply args_from_tensor_nullable_rejected.
  - intros T tensor. unfold ScaledEpilogueBase.args_from_optional_tensor.
    split; rewrite decide_False by (intros [?|?]; discriminate);
      reflexivity.
Qed.

(** C4. With vector scale operands that lie apart from the other operands,
    changing entry k of scaleA leaves every output row other than k
    unchanged, and changing entry k of scaleB leaves every output column
    other than k unchanged: scaleA is tied to rows and scaleB to columns,
    in every variant. *)
Theorem C4_scale_entry_touches_one_row_or_column :
  ∀ (num : Type) (N : Numeric num) ElementAcc ElementD ed v
    a_scales b_scales bias ls args (mem : Memory num) l tile out k x,
    buildArguments ElementD ed v a_scales b_scales bias ls = Some args →
    NoDup (data_ptr <$> operands v a_scales b_scales bias ls) →
    evaluateEpilogue ElementAcc (variantEVT ElementD ed v) args mem l tile
    = Some out →
    (numel a_scales ≠ 1 →
     ∃ out',
       evaluateEpilogue ElementAcc (variantEVT ElementD ed v) args
         (set_entry mem a_scales k x) l tile = Some out'
       ∧ ∀ m, m ≠ k → out' !! m = out !! m)
    ∧ (numel b_scales ≠ 1 →
       ∃ out',
         evaluateEpilogue ElementAcc (variantEVT ElementD ed v) args
           (set_entry mem b_scales k x) l tile = Some out'
         ∧ ∀ m n, n ≠ k → out' !! m ≫= (.!! n) = out !! m ≫= (.!! n)).
Proof.
  intros num N Acc D ed v a b bias ls args mem l tile out k x
    Hargs Hnd Hout.
  assert (Hsome : ∀ tensor,
            is_Some (evaluateEpilogue Acc (variantEVT D ed v) args
                       (set_entry mem tensor k x) l tile)).
  { intros tensor. apply evaluateEpilogue_is_Some.
    intros m n row acc Hrow Hacc.
    destruct (evaluateEpilogue_lookup _ _ _ _ _ _ _ _ _ _ _ Hout Hrow Hacc)
      as (d & Hd & _).
    rewrite (visit_buildArguments Acc D ed v a b bias ls args) in Hd |- *
      by exact Hargs.
    apply D_at_set_entry_is_Some. rewrite Hd. eauto. }
  split; intros Hvec.
  - destruct (Hsome a) as [out' Hout']. exists out'. split; [exact Hout'|].
    intros m Hm.
    destruct (tile !! m) as [row|] eqn:Hrow.
    + destruct (evaluateEpilogue_row _ _ _ _ _ _ _ _ _ Hout Hrow)
        as (orow & -> & Ho).
      destruct (evaluateEpilogue_row _ _ _ _ _ _ _ _ _ Hout' Hrow)
        as (orow' & -> & Ho').
      rewrite <- Ho, <- Ho'. apply imapM_ext. intros n acc _. cbn.
      rewrite !(visit_buildArguments Acc D ed v a b bias ls args)
        by exact Hargs.
      apply D_at_set_entry_scaleA; assumption.
    + unfold evaluateEpilogue in Hout, Hout'.
      apply imapM_length in Hout, Hout'. apply lookup_ge_None in Hrow.
      rewrite (proj2 (lookup_ge_None out m)),
        (proj2 (lookup_ge_None out' m)) by lia.
      reflexivity.
  - destruct (Hsome b) as [out' Hout']. exists out'. split; [exact Hout'|].
    intros m n Hn.
    destruct (tile !! m ≫= (.!! n)) as [acc|] eqn:Hacc.
    + destruct (tile !! m) as [row|] eqn:Hrow; [|discriminate].
      cbn in Hacc.
      destruct (evaluateEpilogue_lookup _ _ _ _ _ _ _ _ _ _ _
                  Hout Hrow Hacc) as (d & Hd & ->).
      destruct (evaluateEpilogue_lookup _ _ _ _ _ _ _ _ _ _ _
                  Hout' Hrow Hacc) as (d' & Hd' & ->).
      rewrite <- Hd, <- Hd'.
      rewrite !(visit_buildArguments Acc D ed v a b bias ls args)
        by exact Hargs.
      apply D_at_set_entry_scaleB; assumption.
    + rewrite (evaluateEpilogue_lookup_None _ _ _ _ _ _ _ _ _ Hout Hacc),
        (evaluateEpilogue_lookup_None _ _ _ _ _ _ _ _ _ Hout' Hacc).
      reflexivity.
Qed.

Lemma C4_scale_entry_witness :
  (∃ out',
     evaluateEpilogue int32_t (variantEVT half_t Ex.ed ScaledBiasLs)
       (Sm90EVT_Arguments
          [vector_args Ex.ls;
           Sm90EVT_Arguments
             [scale_args Ex.a_scales; evt0_block Ex.b_scales;
              vector_args Ex.bias; Sm90Compute_Arguments];
           Sm90Compute_Arguments])
       (set_entry Ex.mem Ex.a_scales 1 5) 0 Ex.tile = Some out'
     ∧ ∀ m, m ≠ 1%nat → out' !! m = [[42; 401]; [182; 1201]] !! m)
  ∧ (∃ out',
       evaluateEpilogue int32_t (variantEVT half_t Ex.ed ScaledBiasLs)
         (Sm90EVT_Arguments
            [vector_args Ex.ls;
             Sm90EVT_Arguments
               [scale_args Ex.a_scales; evt0_block Ex.b_scales;
                vector_args Ex.bias; Sm90Compute_Arguments];
             Sm90Compute_Arguments])
         (set_entry Ex.mem Ex.b_scales 1 5) 0 Ex.tile = Some out'
       ∧ ∀ m n, n ≠ 1%nat →
           out' !! m ≫= (.!! n) = [[42; 401]; [182; 1201]] !! m ≫= (.!! n)).
Proof.
  destruct (C4_scale_entry_touches_one_row_or_column
              Z Numeric_Z int32_t half_t Ex.ed ScaledBiasLs
              Ex.a_scales Ex.b_scales Ex.bias Ex.ls _ Ex.mem 0%nat Ex.tile
              [[42; 401]; [182; 1201]] 1%nat 5
              (ScaledBiasLs_prepare_args half_t Ex.ed _ _ _ _))
    as [HA HB].
  - apply (bool_decide_unpack _). vm_compute. exact I.
  - vm_compute. reflexivity.
  - split; [apply HA | apply HB]; vm_compute; discriminate.
Defined.

(** C5. The Scaled variant computes D = scaleA * (scaleB * Acc) at every
    output coordinate, scaleA taken by row and scaleB by column (or as one
    scalar); for the accumulator tile [[1,2],[3,4]], per-row scaleA [2,3]
    and per-column scaleB [10,100] the output tile is
    [[20,400],[90,1200]]. *)
Theorem C5_Scaled_formula_and_scenario :
  (∀ (num : Type) (N : Numeric num) ElementAcc ElementD ed
     a_scales b_scales (mem : Memory num) acc m n l,
     (args ← ScaledEpilogue.prepare_args ElementD ed a_scales b_scales;
      visit ElementAcc (ScaledEpilogue.EVTCompute ElementD ed) args
        mem acc (m, n, l) [])
     = (a ← scale_value mem a_scales m;
        b ← scale_value mem b_scales n;
        Some (D_Scaled ElementAcc ElementD a b acc)))
  ∧ (∀ a b acc : Z, D_Scaled int32_t half_t a b acc = a * (b * acc))
  ∧ (args ← ScaledEpilogue.prepare_args half_t Ex.ed Ex.a_scales Ex.b_scales;
     evaluateEpilogue int32_t (ScaledEpilogue.EVTCompute half_t Ex.ed) args
       Ex.mem 0 [[1; 2]; [3; 4]])
    = Some [[20; 400]; [90; 1200]].
Proof.
  split; [|split].
  - intros. rewrite Scaled_prepare_args. cbn [mbind option_bind].
    apply (visit_buildArguments ElementAcc ElementD ed Scaled
             a_scales b_scales a_scales a_scales).
    apply Scaled_prepare_args.
  - reflexivity.
  - vm_compute. reflexivity.
Qed.

(** C6. The identity law: in every variant, with both scales the scalar
    one, the bias (where the variant has one) the all-zero vector and the
    multiplier (where the variant has one) the all-one vector, the output
    tile is the accumulator tile converted to the output type, in an
    arithmetic where one is a unit of multiplication and adding zero
    changes nothing. *)
Theorem C6_identity_law :
  ∀ (num : Type) (N : Numeric num) (one zero : num),
    ExactUnits num one zero →
    ∀ ElementAcc ElementD ed v a_scales b_scales bias ls args
      (mem : Memory num) l tile width,
      buildArguments ElementD ed v a_scales b_scales bias ls = Some args →
      numel a_scales = 1 → tensor_data mem a_scales = Some [one] →
      numel b_scales = 1 → tensor_data mem b_scales = Some [one] →
      (has_bias v = true →
       tensor_data mem bias = Some (replicate width zero)) →
      (has_multiplier v = true →
       tensor_data mem ls = Some (replicate width one)) →
      Forall (λ row, (length row ≤ width)%nat) tile →
      evaluateEpilogue ElementAcc (variantEVT ElementD ed v) args mem l tile
      = Some (fmap (M := list)
                (fmap (M := list) (cast_acc ElementAcc ElementD)) tile).
Proof.
  intros num N one zero U Acc D ed v a b bias ls args mem l tile width
    Hargs Hna Ha Hnb Hb Hbias Hls Hall.
  rewrite (evaluateEpilogue_Some Acc _ args mem l tile
             (λ _ _ acc, cast_acc Acc D acc)).
  - f_equal. rewrite <- imap_const. apply imap_ext. intros m row _. cbn.
    apply imap_const.
  - intros m n row acc Hrow Hacc.
    rewrite (visit_buildArguments Acc D ed v a b bias ls args) by exact Hargs.
    pose proof (tile_column_bound tile width m n row acc Hall Hrow Hacc)
      as Hlt.
    destruct v; cbn [D_at];
      rewrite ?(scale_value_scalar mem a one m Hna Ha),
        ?(scale_value_scalar mem b one n Hnb Hb);
      try rewrite (channel_value_replicate mem bias width zero n
                     (Hbias eq_refl) Hlt);
      try rewrite (channel_value_replicate mem ls width one n
                     (Hls eq_refl) Hlt);
      cbn [mbind option_bind];
      rewrite ?D_ScaledBias_zero, ?D_ScaledLs_one, ?D_ScaledBiasLs_zero_one,
        D_Scaled_one;
      reflexivity.
Qed.

Lemma C6_identity_law_witness :
  evaluateEpilogue int32_t (variantEVT half_t Ex.ed ScaledBiasLs)
    (Sm90EVT_Arguments
       [vector_args Ex.ls_one;
        Sm90EVT_Arguments
          [scale_args Ex.scalar_one; evt0_block Ex.scalar_one;
           vector_args Ex.bias_zero; Sm90Compute_Arguments];
        Sm90Compute_Arguments])
    Ex.mem 0 Ex.tile
  = Some (fmap (M := list)
            (fmap (M := list) (cast_acc int32_t half_t)) Ex.tile).
Proof.
  apply (C6_identity_law Z Numeric_Z 1 0 ExactUnits_Z int32_t half_t Ex.ed
           ScaledBiasLs Ex.scalar_one Ex.scalar_one Ex.bias_zero Ex.ls_one
           _ Ex.mem 0%nat Ex.tile 2%nat);
    try reflexivity.
  repeat constructor.
Defined.

(** C7. ScaledBias with an all-zero bias vector, and ScaledLs with an
    all-one multiplier vector, give the same output tile as Scaled on the
    same accumulator tile and scale operands, in an arithmetic where one
    is a unit of multiplication and adding zero changes nothing. *)
Theorem C7_zero_bias_or_unit_multiplier_is_Scaled :
  ∀ (num : Type) (N : Numeric num) (one zero : num),
    ExactUnits num one zero →
    ∀ ElementAcc ElementD ed a_scales b_scales bias ls
      (mem : Memory num) l tile width,
      Forall (λ row, (length row ≤ width)%nat) tile →
      (tensor_data mem bias = Some (replicate width zero) →
       (args ← ScaledEpilogueBias.prepare_args
                 ElementD ed a_scales b_scales bias;
        evaluateEpilogue ElementAcc
          (ScaledEpilogueBias.EVTCompute ElementD ed) args mem l tile)
       = (args ← ScaledEpilogue.prepare_args ElementD ed a_scales b_scales;
          evaluateEpilogue ElementAcc
            (ScaledEpilogue.EVTCompute ElementD ed) args mem l tile))
      ∧ (tensor_data mem ls = Some (replicate width one) →
         (args ← ScaledEpilogueLs.prepare_args
                   ElementD ed a_scales b_scales ls;
          evaluateEpilogue ElementAcc
            (ScaledEpilogueLs.EVTCompute ElementD ed) args mem l tile)
         = (args ← ScaledEpilogue.prepare_args
                     ElementD ed a_scales b_scales;
            evaluateEpilogue ElementAcc
              (ScaledEpilogue.EVTCompute ElementD ed) args mem l tile)).
Proof.
  intros num N one zero U Acc D ed a b bias ls mem l tile width Hall.
  split; intros Hdata.
  - rewrite ScaledBias_prepare_args, Scaled_prepare_args.
    cbn [mbind option_bind].
    apply evaluateEpilogue_ext. intros m n row acc Hrow Hacc.
    rewrite (visit_buildArguments Acc D ed ScaledBias a b bias ls)
      by apply ScaledBias_prepare_args.
    rewrite (visit_buildArguments Acc D ed Scaled a b bias ls)
      by apply Scaled_prepare_args.
    cbn [D_at].
    rewrite (channel_value_replicate mem bias width zero n Hdata)
      by (eapply tile_column_bound; eassumption).
    destruct (scale_value mem a m); [|reflexivity].
    destruct (scale_value mem b n); [|reflexivity].
    cbn. rewrite D_ScaledBias_zero. reflexivity.
  - rewrite ScaledLs_prepare_args, Scaled_prepare_args.
    cbn [mbind option_bind].
    apply evaluateEpilogue_ext. intros m n row acc Hrow Hacc.
    rewrite (visit_buildArguments Acc D ed ScaledLs a b bias ls)
      by apply ScaledLs_prepare_args.
    rewrite (visit_buildArguments Acc D ed Scaled a b bias ls)
      by apply Scaled_prepare_args.
    cbn [D_at].
    rewrite (channel_value_replicate mem ls width one n Hdata)
      by (eapply tile_column_bound; eassumption).
    cbn [mbind option_bind].
    destruct (scale_value mem a m); [|reflexivity].
    destruct (scale_value mem b n); [|reflexivity].
    cbn. rewrite D_ScaledLs_one. reflexivity.
Qed.

Lemma C7_zero_bias_or_unit_multiplier_witness :
  (args ← ScaledEpilogueBias.prepare_args
            half_t Ex.ed Ex.a_scales Ex.b_scales Ex.bias_zero;
   evaluateEpilogue int32_t (ScaledEpilogueBias.EVTCompute half_t Ex.ed)
     args Ex.mem 0 Ex.tile)
  = (args ← ScaledEpilogue.prepare_args
              half_t Ex.ed Ex.a_scales Ex.b_scales;
     evaluateEpilogue int32_t (ScaledEpilogue.EVTCompute half_t Ex.ed)
       args Ex.mem 0 Ex.tile)
  ∧ (args ← ScaledEpilogueLs.prepare_args
              half_t Ex.ed Ex.a_scales Ex.b_scales Ex.ls_one;
     evaluateEpilogue int32_t (ScaledEpilogueLs.EVTCompute half_t Ex.ed)
       args Ex.mem 0 Ex.tile)
    = (args ← ScaledEpilogue.prepare_args
                half_t Ex.ed Ex.a_scales Ex.b_scales;
       evaluateEpilogue int32_t (ScaledEpilogue.EVTCompute half_t Ex.ed)
         args Ex.mem 0 Ex.tile).
Proof.
  destruct (C7_zero_bias_or_unit_multiplier_is_Scaled
              Z Numeric_Z 1 0 ExactUnits_Z int32_t half_t Ex.ed
              Ex.a_scales Ex.b_scales Ex.bias_zero Ex.ls_one
              Ex.mem 0%nat Ex.tile 2%nat) as [Hbias Hls].
  - repeat constructor.
  - split; [apply Hbias | apply Hls]; reflexivity.
Defined.

(** C8. Argument construction is a function of the operand handles alone:
    operands with the same data pointers and element counts give the same
    argument block, in every variant; the block has the shape of the
    variant's tree, and the pointers it holds are exactly the data
    pointers of the variant's operands, so nothing is copied and no
    storage is made. *)
Theorem C8_prepare_args_depends_on_handles_only :
  ∀ ElementD ed v a1 b1 bias1 ls1 a2 b2 bias2 ls2,
    data_ptr a1 = data_ptr a2 → numel a1 = numel a2 →
    data_ptr b1 = data_ptr b2 → numel b1 = numel b2 →
    data_ptr bias1 = data_ptr bias2 → numel bias1 = numel bias2 →
    data_ptr ls1 = data_ptr ls2 → numel ls1 = numel ls2 →
    buildArguments ElementD ed v a1 b1 bias1 ls1
    = buildArguments ElementD ed v a2 b2 bias2 ls2
    ∧ ∃ args,
        buildArguments ElementD ed v a1 b1 bias1 ls1 = Some args
        ∧ has_shape (variantEVT ElementD ed v) args = true
        ∧ pointers_of args ≡ₚ data_ptr <$> operands v a1 b1 bias1 ls1.
Proof.
  intros D ed v a1 b1 c1 l1 a2 b2 c2 l2 Hpa Hna Hpb Hnb Hpc Hnc Hpl Hnl.
  destruct v; cbn [buildArguments];
    rewrite ?Scaled_prepare_args, ?ScaledBias_prepare_args,
      ?ScaledLs_prepare_args, ?ScaledBiasLs_prepare_args;
    unfold evt0_block, scale_args, vector_args;
    (split; [rewrite Hpa, Hna, Hpb, Hnb, ?Hpc, ?Hpl; reflexivity|]);
    eexists; (split; [reflexivity|]); (split; [reflexivity|]); cbn.
  - reflexivity.
  - reflexivity.
  - apply Permutation_cons_append with (l := [_; _]).
  - apply Permutation_cons_append with (l := [_; _; _]).
Qed.

Lemma C8_prepare_args_witness :
  buildArguments half_t Ex.ed ScaledBiasLs
    Ex.a_scales Ex.b_scales Ex.bias Ex.ls
  = buildArguments half_t Ex.ed ScaledBiasLs
      (mkTensor (data_ptr Ex.a_scales) [2])
      (mkTensor (data_ptr Ex.b_scales) [2; 1; 1])
      (mkTensor (data_ptr Ex.bias) [1; 2])
      (mkTensor (data_ptr Ex.ls) [2; 1])
  ∧ ∃ args,
      buildArguments half_t Ex.ed ScaledBiasLs
        Ex.a_scales Ex.b_scales Ex.bias Ex.ls = Some args
      ∧ has_shape (variantEVT half_t Ex.ed ScaledBiasLs) args = true
      ∧ pointers_of args
        ≡ₚ data_ptr <$> operands ScaledBiasLs
                          Ex.a_scales Ex.b_scales Ex.bias Ex.ls.
Proof.
  apply (C8_prepare_args_depends_on_handles_only half_t Ex.ed ScaledBiasLs);
    reflexivity.
Defined.

(** C9. The ScaledBias variant computes D = scaleA * (scaleB * Acc) + bias
    at every output coordinate, the bias taken by column; for the
    accumulator tile [[1,2],[3,4]], per-row scaleA [2,3], per-column scaleB
    [10,100] and per-column bias [1,1] the output tile is
    [[21,401],[91,1201]]. *)
Theorem C9_ScaledBias_formula_and_scenario :
  (∀ (num : Type) (N : Numeric num) ElementAcc ElementD ed
     a_scales b_scales bias (mem : Memory num) acc m n l,
     (args ← ScaledEpilogueBias.prepare_args
               ElementD ed a_scales b_scales bias;
      visit ElementAcc (ScaledEpilogueBias.EVTCompute ElementD ed) args
        mem acc (m, n, l) [])
     = (a ← scale_value mem a_scales m;
        b ← scale_value mem b_scales n;
        c ← channel_value mem bias n;
        Some (D_ScaledBias ElementAcc ElementD a b c acc)))
  ∧ (∀ a b c acc : Z,
       D_ScaledBias int32_t half_t a b c acc = a * (b * acc) + c)
  ∧ (args ← ScaledEpilogueBias.prepare_args
              half_t Ex.ed Ex.a_scales Ex.b_scales Ex.bias;
     evaluateEpilogue int32_t (ScaledEpilogueBias.EVTCompute half_t Ex.ed)
       args Ex.mem 0 [[1; 2]; [3; 4]])
    = Some [[21; 401]; [91; 1201]].
Proof.
  split; [|split].
  - intros. rewrite ScaledBias_prepare_args. cbn [mbind option_bind].
    apply (visit_buildArguments ElementAcc ElementD ed ScaledBias
             a_scales b_scales bias bias).
    apply ScaledBias_prepare_args.
  - reflexivity.
  - vm_compute. reflexivity.
Qed.

(** C10. For either scale operand, every element count other than
    exactly 1 selects vector mode, the count 0 included: the block holds
    the tensor's data pointer and has the broadcast flag set, and the tree
    indexes the data by row (scaleA) or by column (scaleB).  A scale
    tensor without elements is thus bound as a vector, not taken for an
    absent operand or a scalar. *)
Theorem C10_every_count_but_one_selects_vector_mode :
  ∀ (num : Type) (N : Numeric num) ElementAcc ed T tensor,
    numel tensor ≠ 1 →
    ScaledEpilogueBase.args_from_tensor ed
      (ScaledEpilogueBase.ColOrScalarLoad ed T) T tensor
    = Some (OrScalarBroadcast_Arguments (data_ptr tensor) true)
    ∧ ScaledEpilogueBase.args_from_tensor ed
        (ScaledEpilogueBase.RowOrScalarLoad ed T) T tensor
      = Some (OrScalarBroadcast_Arguments (data_ptr tensor) true)
    ∧ ∀ (mem : Memory num) acc m n l,
        visit ElementAcc (ScaledEpilogueBase.ColOrScalarLoad ed T)
          (OrScalarBroadcast_Arguments (data_ptr tensor) true)
          mem acc (m, n, l) []
        = load mem (data_ptr tensor) m
        ∧ visit ElementAcc (ScaledEpilogueBase.RowOrScalarLoad ed T)
            (OrScalarBroadcast_Arguments (data_ptr tensor) true)
            mem acc (m, n, l) []
          = load mem (data_ptr tensor) n.
Proof.
  intros num N Acc ed T tensor Hn.
  rewrite args_from_tensor_ColOrScalarLoad,
    args_from_tensor_RowOrScalarLoad.
  unfold scale_args.
  destruct (numel tensor =? 1) eqn:E; [lia|]. cbn [negb].
  repeat split.
  - unfold ScaledEpilogueBase.ColOrScalarLoad. cbn [visit].
    rewrite crd2idx_M. reflexivity.
  - unfold ScaledEpilogueBase.RowOrScalarLoad. cbn [visit].
    rewrite crd2idx_N. reflexivity.
Qed.

Lemma C10_zero_elements_witness :
  numel Ex.empty = 0
  ∧ ScaledEpilogueBase.args_from_tensor Ex.ed
      (ScaledEpilogueBase.ColOrScalarLoad Ex.ed float) float Ex.empty
    = Some (OrScalarBroadcast_Arguments (data_ptr Ex.empty) true)
  ∧ ScaledEpilogueBase.args_from_tensor Ex.ed
      (ScaledEpilogueBase.RowOrScalarLoad Ex.ed float) float Ex.empty
    = Some (OrScalarBroadcast_Arguments (data_ptr Ex.empty) true)
  ∧ ∀ (mem : Memory Z) acc m n l,
      visit int32_t (ScaledEpilogueBase.ColOrScalarLoad Ex.ed float)
        (OrScalarBroadcast_Arguments (data_ptr Ex.empty) true)
        mem acc (m, n, l) []
      = load mem (data_ptr Ex.empty) m
      ∧ visit int32_t (ScaledEpilogueBase.RowOrScalarLoad Ex.ed float)
          (OrScalarBroadcast_Arguments (data_ptr Ex.empty) true)
          mem acc (m, n, l) []
        = load mem (data_ptr Ex.empty) n.
Proof.
  split; [reflexivity|].
  apply (C10_every_count_but_one_selects_vector_mode
           Z Numeric_Z int32_t Ex.ed float Ex.empty).
  vm_compute. discriminate.
Defined.

(** * Further properties of the code *)

(** ** More facts about operands *)

Section OperandFacts.
Context {num : Type} `{!Numeric num}.
Variables (ElementAcc ElementD : Element) (ed : EpilogueDescriptorT).

(** Nothing is read through a null pointer. *)
Lemma scale_value_nullptr (mem : Memory num) tensor i :
  data_ptr tensor = nullptr → scale_value mem tensor i = None.
Proof. intros H. unfold scale_value. rewrite H. reflexivity. Qed.

Lemma channel_value_nullptr (mem : Memory num) tensor n :
  data_ptr tensor = nullptr → channel_value mem tensor n = None.
Proof. intros H. unfold channel_value. rewrite H. reflexivity. Qed.

(** A bias or Ls vector: the entries other than [i] are read as before,
    whatever the element count. *)
Lemma channel_value_set_entry_index (mem : Memory num) tensor i x k :
  k ≠ i →
  channel_value (set_entry mem tensor i x) tensor k
  = channel_value mem tensor k.
Proof. intros Hk. apply load_set_entry_ne_index. exact Hk. Qed.

(** The nullable loads: an absent operand is the constant 0. *)
Lemma visit_RowLoad_nullable T p (mem : Memory num) acc m n l ins :
  visit ElementAcc (ScaledEpilogueBase.RowLoad ed T true)
    (Broadcast_Arguments p) mem acc (m, n, l) ins
  = match p with
    | nullptr => Some ElementInput_0
    | Ptr _ => load mem p n
    end.
Proof.
  unfold ScaledEpilogueBase.RowLoad. cbn [visit]. rewrite crd2idx_N.
  destruct p as [|b]; cbn; rewrite ?convert_same; [reflexivity|].
  destruct (mem !! b ≫= (.!! n)); cbn; rewrite ?convert_same; reflexivity.
Qed.

Lemma visit_ColLoad_nullable T p (mem : Memory num) acc m n l ins :
  visit ElementAcc (ScaledEpilogueBase.ColLoad ed T true)
    (Broadcast_Arguments p) mem acc (m, n, l) ins
  = match p with
    | nullptr => Some ElementInput_0
    | Ptr _ => load mem p m
    end.
Proof.
  unfold ScaledEpilogueBase.ColLoad. cbn [visit]. rewrite crd2idx_M.
  destruct p as [|b]; cbn; rewrite ?convert_same; [reflexivity|].
  destruct (mem !! b ≫= (.!! m)); cbn; rewrite ?convert_same; reflexivity.
Qed.

(** The element at (m, n) of a tile. *)
Lemma tile_lookup_Some {A : Type} (tile : list (list A)) m n acc :
  tile !! m ≫= (.!! n) = Some acc →
  ∃ row, tile !! m = Some row ∧ row !! n = Some acc.
Proof. destruct (tile !! m) as [row|]; [eauto|discriminate]. Qed.

(** A launch on the block a variant builds, element by element: it has a
    result when the formula has a value at every coordinate of the tile,
    and then each element is the formula's value. *)
Lemma evaluateEpilogue_D_at v a b bias ls args (mem : Memory num) l tile :
  buildArguments ElementD ed v a b bias ls = Some args →
  (∀ m n row acc, tile !! m = Some row → row !! n = Some acc →
     is_Some (D_at ElementAcc ElementD v mem a b bias ls m n acc)) →
  ∃ out,
    evaluateEpilogue ElementAcc (variantEVT ElementD ed v) args mem l tile
    = Some out
    ∧ ∀ m n, out !! m ≫= (.!! n)
             = (tile !! m ≫= (.!! n))
               ≫= D_at ElementAcc ElementD v mem a b bias ls m n.
Proof.
  intros Hargs Hall.
  destruct (evaluateEpilogue_is_Some ElementAcc (variantEVT ElementD ed v)
              args mem l tile) as [out Hout].
  { intros m n row acc Hrow Hacc.
    rewrite (visit_buildArguments _ _ _ v a b bias ls args) by exact Hargs.
    eauto. }
  exists out. split; [exact Hout|]. intros m n.
  destruct (tile !! m ≫= (.!! n)) as [acc|] eqn:Hacc.
  - destruct (tile_lookup_Some _ _ _ _ Hacc) as (row & Hrow & Hn).
    destruct (evaluateEpilogue_lookup _ _ _ _ _ _ _ _ _ _ _ Hout Hrow Hn)
      as (d & Hd & ->).
    cbn. rewrite <- Hd.
    apply (visit_buildArguments _ _ _ v a b bias ls args). exact Hargs.
  - cbn. eapply evaluateEpilogue_lookup_None; eassumption.
Qed.
End OperandFacts.

(** ** More facts about the formulas *)

Section FormulaFacts.
Context {num : Type} `{!Numeric num} {one zero : num}.
Context `{!ExactUnits num one zero}.
Variables (ElementAcc ElementD : Element).

Lemma D_ScaledBiasLs_one a b c acc :
  D_ScaledBiasLs ElementAcc ElementD a b c one acc
  = D_ScaledBias ElementAcc ElementD a b c acc.
Proof.
  unfold D_ScaledBiasLs, D_ScaledBias.
  rewrite (to_float_one (one := one)), multiplies_one_l. reflexivity.
Qed.

Lemma D_ScaledBiasLs_zero a b L acc :
  D_ScaledBiasLs ElementAcc ElementD a b zero L acc
  = D_ScaledLs ElementAcc ElementD a b L acc.
Proof.
  unfold D_ScaledBiasLs, D_ScaledLs.
  rewrite (to_float_zero (zero := zero)), multiply_add_zero. reflexivity.
Qed.
End FormulaFacts.

Section LaunchFacts.
Context {num : Type} `{!Numeric num}.
Variables (ElementAcc ElementD : Element) (ed : EpilogueDescriptorT).

(** The elements of the output tile of a launch. *)
Lemma evaluateEpilogue_elements v a b bias ls args (mem : Memory num)
    l tile out :
  buildArguments ElementD ed v a b bias ls = Some args →
  evaluateEpilogue ElementAcc (variantEVT ElementD ed v) args mem l tile
  = Some out →
  ∀ m n, out !! m ≫= (.!! n)
         = (tile !! m ≫= (.!! n))
           ≫= D_at ElementAcc ElementD v mem a b bias ls m n.
Proof.
  intros Hargs Hout m n.
  destruct (tile !! m ≫= (.!! n)) as [acc|] eqn:Hacc.
  - destruct (tile_lookup_Some _ _ _ _ Hacc) as (row & Hrow & Hn).
    destruct (evaluateEpilogue_lookup _ _ _ _ _ _ _ _ _ _ _ Hout Hrow Hn)
      as (d & Hd & ->).
    cbn. rewrite <- Hd.
    apply (visit_buildArguments _ _ _ v a b bias ls args). exact Hargs.
  - cbn. eapply evaluateEpilogue_lookup_None; eassumption.
Qed.

(** Inside the tile the formula has a value once the launch has one. *)
Lemma evaluateEpilogue_D_at_is_Some v a b bias ls args (mem : Memory num)
    l tile out m n row acc :
  buildArguments ElementD ed v a b bias ls = Some args →
  evaluateEpilogue ElementAcc (variantEVT ElementD ed v) args mem l tile
  = Some out →
  tile !! m = Some row → row !! n = Some acc →
  is_Some (D_at ElementAcc ElementD v mem a b bias ls m n acc).
Proof.
  intros Hargs Hout Hrow Hacc.
  destruct (evaluateEpilogue_lookup _ _ _ _ _ _ _ _ _ _ _ Hout Hrow Hacc)
    as (d & Hd & _).
  rewrite (visit_buildArguments _ _ _ v a b bias ls args) in Hd
    by exact Hargs.
  rewrite Hd. eauto.
Qed.

(** Bias and multiplier lie apart when a variant reads both. *)
Lemma operands_apart_bias_ls v a b bias ls :
  NoDup (data_ptr <$> operands v a b bias ls) →
  has_bias v = true → has_multiplier v = true →
  data_ptr bias ≠ data_ptr ls.
Proof.
  unfold operands. intros Hnd Hb Hl.
  destruct v; try discriminate. cbn in Hnd.
  repeat (apply NoDup_cons in Hnd as [? Hnd]). set_solver.
Qed.

(** Changing entry [k] of the bias, or of the multiplier, leaves the
    columns other than [k] as they were. *)
Lemma D_at_set_entry_bias v (mem : Memory num) a b bias ls k x m n acc :
  NoDup (data_ptr <$> operands v a b bias ls) →
  has_bias v = true → n ≠ k →
  D_at ElementAcc ElementD v (set_entry mem bias k x) a b bias ls m n acc
  = D_at ElementAcc ElementD v mem a b bias ls m n acc.
Proof.
  intros Hnd Hv Hn.
  destruct (operands_apart _ _ _ _ _ Hnd) as (Hab & Hbias & Hls).
  destruct (Hbias Hv) as [Hba Hbb].
  pose proof (operands_apart_bias_ls _ _ _ _ _ Hnd Hv) as Hbl.
  destruct v; try discriminate; cbn [D_at];
    rewrite (channel_value_set_entry_index mem bias k x n Hn),
      (scale_value_set_entry_ne mem bias k x a m),
      (scale_value_set_entry_ne mem bias k x b n) by congruence;
    try (rewrite (channel_value_set_entry_ne mem bias k x ls n)
           by (intros E; apply Hbl; [reflexivity|congruence]));
    reflexivity.
Qed.

Lemma D_at_set_entry_ls v (mem : Memory num) a b bias ls k x m n acc :
  NoDup (data_ptr <$> operands v a b bias ls) →
  has_multiplier v = true → n ≠ k →
  D_at ElementAcc ElementD v (set_entry mem ls k x) a b bias ls m n acc
  = D_at ElementAcc ElementD v mem a b bias ls m n acc.
Proof.
  intros Hnd Hv Hn.
  destruct (operands_apart _ _ _ _ _ Hnd) as (Hab & Hbias & Hls).
  destruct (Hls Hv) as [Hla Hlb].
  pose proof (λ Hb, operands_apart_bias_ls _ _ _ _ _ Hnd Hb Hv) as Hbl.
  destruct v; try discriminate; cbn [D_at];
    rewrite (channel_value_set_entry_index mem ls k x n Hn),
      (scale_value_set_entry_ne mem ls k x a m),
      (scale_value_set_entry_ne mem ls k x b n) by congruence;
    try (rewrite (channel_value_set_entry_ne mem ls k x bias n)
           by (apply Hbl; reflexivity));
    reflexivity.
Qed.

(** A launch on a memory in which one entry was overwritten: it still has
    a result, and the columns on which the formula reads the same values
    are unchanged. *)
Lemma evaluateEpilogue_set_entry_columns v a b bias ls args
    (mem : Memory num) l tile out tensor k x :
  buildArguments ElementD ed v a b bias ls = Some args →
  evaluateEpilogue ElementAcc (variantEVT ElementD ed v) args mem l tile
  = Some out →
  (∀ m n acc, n ≠ k →
     D_at ElementAcc ElementD v (set_entry mem tensor k x)
       a b bias ls m n acc
     = D_at ElementAcc ElementD v mem a b bias ls m n acc) →
  ∃ out',
    evaluateEpilogue ElementAcc (variantEVT ElementD ed v) args
      (set_entry mem tensor k x) l tile = Some out'
    ∧ ∀ m n, n ≠ k → out' !! m ≫= (.!! n) = out !! m ≫= (.!! n).
Proof.
  intros Hargs Hout Hframe.
  destruct (evaluateEpilogue_D_at ElementAcc ElementD ed v a b bias ls args
              (set_entry mem tensor k x) l tile Hargs)
    as (out' & Hout' & Hel').
  { intros m n row acc Hrow Hacc. apply D_at_set_entry_is_Some.
    eapply evaluateEpilogue_D_at_is_Some; eassumption. }
  exists out'. split; [exact Hout'|]. intros m n Hn.
  rewrite Hel', (evaluateEpilogue_elements v a b bias ls args mem l tile out
                   Hargs Hout).
  destruct (tile !! m ≫= (.!! n)); [|reflexivity]. cbn. apply Hframe, Hn.
Qed.
End LaunchFacts.

Section ModeFacts.
Context {num : Type} `{!Numeric num}.
Variables (ElementAcc ElementD : Element) (ed : EpilogueDescriptorT).

(** Every variant's [prepare_args] compiles and returns a block. *)
Lemma buildArguments_is_Some v a b bias ls :
  is_Some (buildArguments ElementD ed v a b bias ls).
Proof.
  destruct v; cbn [buildArguments];
    rewrite ?Scaled_prepare_args, ?ScaledBias_prepare_args,
      ?ScaledLs_prepare_args, ?ScaledBiasLs_prepare_args;
    eauto.
Qed.

(** Index 0 is read in scalar and in vector mode alike. *)
Lemma scale_value_first (mem : Memory num) t t' :
  data_ptr t = data_ptr t' →
  scale_value mem t 0 = scale_value mem t' 0.
Proof.
  intros Hp. unfold scale_value. rewrite Hp.
  destruct (numel t =? 1), (numel t' =? 1); reflexivity.
Qed.

Lemma D_at_scaleA_first_row v (mem : Memory num) a a' b bias ls n acc :
  data_ptr a = data_ptr a' →
  D_at ElementAcc ElementD v mem a b bias ls 0 n acc
  = D_at ElementAcc ElementD v mem a' b bias ls 0 n acc.
Proof.
  intros Hp. destruct v; cbn [D_at];
    rewrite (scale_value_first mem a a' Hp); reflexivity.
Qed.

Lemma D_at_scaleB_first_column v (mem : Memory num) a b b' bias ls m acc :
  data_ptr b = data_ptr b' →
  D_at ElementAcc ElementD v mem a b bias ls m 0 acc
  = D_at ElementAcc ElementD v mem a b' bias ls m 0 acc.
Proof.
  intros Hp. destruct v; cbn [D_at];
    rewrite (scale_value_first mem b b' Hp); reflexivity.
Qed.
End ModeFacts.

(** ** The properties *)

(** X1. The ScaledLs variant computes D = L * (scaleA * (scaleB * Acc)) at
    every output coordinate, scaleA taken by row, scaleB and the multiplier
    L by column; the product scaleA * (scaleB * Acc) stays in float and is
    converted to the output type once, after L was applied.  For the tile
    [[1,2],[3,4]], scaleA [2,3], scaleB [10,100] and multiplier [2,1] the
    output is [[40,400],[180,1200]]. *)
Theorem X1_ScaledLs_formula :
  (∀ (num : Type) (N : Numeric num) ElementAcc ElementD ed
     a_scales b_scales ls (mem : Memory num) acc m n l,
     (args ← ScaledEpilogueLs.prepare_args ElementD ed a_scales b_scales ls;
      visit ElementAcc (ScaledEpilogueLs.EVTCompute ElementD ed) args
        mem acc (m, n, l) [])
     = (L ← channel_value mem ls n;
        a ← scale_value mem a_scales m;
        b ← scale_value mem b_scales n;
        Some (to_ElementD ElementD
                (multiplies_op float (to_float ElementD L)
                   (multiplies_op float a
                      (multiplies_op float b (to_float ElementAcc acc)))))))
  ∧ (args ← ScaledEpilogueLs.prepare_args
              half_t Ex.ed Ex.a_scales Ex.b_scales Ex.ls;
     evaluateEpilogue int32_t (ScaledEpilogueLs.EVTCompute half_t Ex.ed)
       args Ex.mem 0 [[1; 2]; [3; 4]])
    = Some [[40; 400]; [180; 1200]].
Proof.
  split.
  - intros. rewrite ScaledLs_prepare_args. cbn [mbind option_bind].
    apply (visit_buildArguments ElementAcc ElementD ed ScaledLs
             a_scales b_scales ls ls).
    apply ScaledLs_prepare_args.
  - vm_compute. reflexivity.
Qed.

(** X2. For every variant, a launch over a whole tile has a result exactly
    when the variant's formula has a value at every coordinate of the
    tile, that is, when every operand read falls inside its data; the
    output tile then has the shape of the accumulator tile and each of
    its elements is the formula's value at that coordinate. *)
Theorem X2_launch_is_formula_at_every_element :
  ∀ (num : Type) (N : Numeric num) ElementAcc ElementD ed v
    a_scales b_scales bias ls args (mem : Memory num) l tile,
    buildArguments ElementD ed v a_scales b_scales bias ls = Some args →
    (is_Some (evaluateEpilogue ElementAcc (variantEVT ElementD ed v)
                args mem l tile)
     ↔ ∀ m n row acc, tile !! m = Some row → row !! n = Some acc →
         is_Some (D_at ElementAcc ElementD v mem
                    a_scales b_scales bias ls m n acc))
    ∧ ∀ out,
        evaluateEpilogue ElementAcc (variantEVT ElementD ed v)
          args mem l tile = Some out →
        length <$> out = length <$> tile
        ∧ ∀ m n, out !! m ≫= (.!! n)
                 = (tile !! m ≫= (.!! n))
                   ≫= D_at ElementAcc ElementD v mem
                         a_scales b_scales bias ls m n.
Proof.
  intros num N Acc D ed v a b bias ls args mem l tile Hargs.
  split; [split|].
  - intros [out Hout] m n row acc Hrow Hacc.
    eapply evaluateEpilogue_D_at_is_Some; eassumption.
  - intros Hall.
    destruct (evaluateEpilogue_D_at Acc D ed v a b bias ls args mem l tile
                Hargs Hall) as (out & -> & _).
    eauto.
  - intros out Hout. split.
    + apply list_eq. intros m. rewrite !list_lookup_fmap.
      destruct (tile !! m) as [row|] eqn:Hrow.
      * destruct (evaluateEpilogue_row _ _ _ _ _ _ _ _ _ Hout Hrow)
          as (orow & -> & Ho).
        cbn. f_equal. eapply imapM_length. exact Ho.
      * unfold evaluateEpilogue in Hout. apply imapM_length in Hout.
        apply lookup_ge_None in Hrow.
        rewrite (proj2 (lookup_ge_None out m)) by lia. reflexivity.
    + eapply evaluateEpilogue_elements; eassumption.
Qed.

Lemma X2_launch_witness :
  (is_Some (evaluateEpilogue int32_t (variantEVT half_t Ex.ed ScaledBias)
              (Sm90EVT_Arguments
                 [scale_args Ex.a_scales; evt0_block Ex.b_scales;
                  vector_args Ex.bias; Sm90Compute_Arguments])
              Ex.mem 0 Ex.tile)
   ↔ ∀ m n row acc, Ex.tile !! m = Some row → row !! n = Some acc →
       is_Some (D_at int32_t half_t ScaledBias Ex.mem
                  Ex.a_scales Ex.b_scales Ex.bias Ex.ls m n acc))
  ∧ ∀ out,
      evaluateEpilogue int32_t (variantEVT half_t Ex.ed ScaledBias)
        (Sm90EVT_Arguments
           [scale_args Ex.a_scales; evt0_block Ex.b_scales;
            vector_args Ex.bias; Sm90Compute_Arguments])
        Ex.mem 0 Ex.tile = Some out →
      length <$> out = length <$> Ex.tile
      ∧ ∀ m n, out !! m ≫= (.!! n)
               = (Ex.tile !! m ≫= (.!! n))
                 ≫= D_at int32_t half_t ScaledBias Ex.mem
                       Ex.a_scales Ex.b_scales Ex.bias Ex.ls m n.
Proof.
  apply (X2_launch_is_formula_at_every_element
           Z Numeric_Z int32_t half_t Ex.ed ScaledBias
           Ex.a_scales Ex.b_scales Ex.bias Ex.ls).
  reflexivity.
Defined.

(** X3. The optional-tensor overload of [args_from_tensor], used with a
    ColLoad or RowLoad that enables the null pointer: an absent tensor
    gives a block holding the null pointer, a present one a block holding
    its data pointer.  On the null pointer the load yields the constant 0
    at every coordinate, whatever the memory; on a data pointer RowLoad
    reads by column and ColLoad by row. *)
Theorem X3_optional_tensor_absent_is_constant_zero :
  ∀ (num : Type) (N : Numeric num) ElementAcc ed T,
    (∀ tensor,
       ScaledEpilogueBase.args_from_optional_tensor ed
         (ScaledEpilogueBase.RowLoad ed T true) T tensor
       = Some (Broadcast_Arguments
                 (match tensor with
                  | Some t => data_ptr t
                  | None => nullptr
                  end))
       ∧ ScaledEpilogueBase.args_from_optional_tensor ed
           (ScaledEpilogueBase.ColLoad ed T true) T tensor
         = Some (Broadcast_Arguments
                   (match tensor with
                    | Some t => data_ptr t
                    | None => nullptr
                    end)))
    ∧ (∀ (mem : Memory num) acc m n l,
         (args ← ScaledEpilogueBase.args_from_optional_tensor ed
                   (ScaledEpilogueBase.RowLoad ed T true) T None;
          visit ElementAcc (ScaledEpilogueBase.RowLoad ed T true) args
            mem acc (m, n, l) []) = Some ElementInput_0
         ∧ (args ← ScaledEpilogueBase.args_from_optional_tensor ed
                     (ScaledEpilogueBase.ColLoad ed T true) T None;
            visit ElementAcc (ScaledEpilogueBase.ColLoad ed T true) args
              mem acc (m, n, l) []) = Some ElementInput_0)
    ∧ (∀ sizes b (mem : Memory num) acc m n l,
         (args ← ScaledEpilogueBase.args_from_optional_tensor ed
                   (ScaledEpilogueBase.RowLoad ed T true) T
                   (Some (mkTensor (Ptr b) sizes));
          visit ElementAcc (ScaledEpilogueBase.RowLoad ed T true) args
            mem acc (m, n, l) []) = load mem (Ptr b) n
         ∧ (args ← ScaledEpilogueBase.args_from_optional_tensor ed
                     (ScaledEpilogueBase.ColLoad ed T true) T
                     (Some (mkTensor (Ptr b) sizes));
            visit ElementAcc (ScaledEpilogueBase.ColLoad ed T true) args
              mem acc (m, n, l) []) = load mem (Ptr b) m).
Proof.
  intros num N Acc ed T.
  assert (Hrow : ∀ tensor,
            ScaledEpilogueBase.args_from_optional_tensor ed
              (ScaledEpilogueBase.RowLoad ed T true) T tensor
            = Some (Broadcast_Arguments
                      (match tensor with
                       | Some t => data_ptr t
                       | None => nullptr
                       end))).
  { intros tensor. unfold ScaledEpilogueBase.args_from_optional_tensor.
    rewrite decide_True by (right; reflexivity).
    cbn. rewrite decide_True by reflexivity. reflexivity. }
  assert (Hcol : ∀ tensor,
            ScaledEpilogueBase.args_from_optional_tensor ed
              (ScaledEpilogueBase.ColLoad ed T true) T tensor
            = Some (Broadcast_Arguments
                      (match tensor with
                       | Some t => data_ptr t
                       | None => nullptr
                       end))).
  { intros tensor. unfold ScaledEpilogueBase.args_from_optional_tensor.
    rewrite decide_True by (left; reflexivity).
    cbn. rewrite decide_True by reflexivity. reflexivity. }
  split; [|split].
  - intros tensor. split; [apply Hrow | apply Hcol].
  - intros mem acc m n l. rewrite Hrow, Hcol. cbn [mbind option_bind].
    rewrite visit_RowLoad_nullable, visit_ColLoad_nullable. split; reflexivity.
  - intros sizes b mem acc m n l. rewrite Hrow, Hcol.
    cbn [mbind option_bind data_ptr].
    rewrite visit_RowLoad_nullable, visit_ColLoad_nullable. split; reflexivity.
Qed.

(** X4. The two overloads of [args_from_tensor] never both compile for
    one descriptor: the [static_assert] of the tensor overload refuses
    exactly the two descriptors (ColLoad and RowLoad with the null pointer
    enabled) that the [static_assert] of the optional-tensor overload
    asks for. *)
Theorem X4_overloads_exclude_each_other :
  ∀ ed Descriptor T tensor optional_tensor,
    ScaledEpilogueBase.args_from_tensor ed Descriptor T tensor = None
    ∨ ScaledEpilogueBase.args_from_optional_tensor ed Descriptor T
        optional_tensor = None.
Proof.
  intros ed D T tensor o.
  unfold ScaledEpilogueBase.args_from_optional_tensor.
  destruct (decide (D = ScaledEpilogueBase.ColLoad ed T true
                    ∨ D = ScaledEpilogueBase.RowLoad ed T true))
    as [Hnullable|]; [left|right; reflexivity].
  unfold ScaledEpilogueBase.args_from_tensor.
  destruct Hnullable as [-> | ->].
  - rewrite decide_False by (intros [?|?]; discriminate).
    rewrite decide_False by (intros [H _]; apply H; reflexivity).
    reflexivity.
  - rewrite decide_False by (intros [?|?]; discriminate).
    rewrite decide_False by (intros [_ H]; apply H; reflexivity).
    reflexivity.
Qed.

(** X5. For every load descriptor, that is every instance of the four
    broadcast visitors, whatever its tile shape, stride or null-pointer
    option, a block that the tensor overload of [args_from_tensor] builds
    holds the tensor's data pointer and nothing else, and has the shape of
    the descriptor; the element count enters the block only for the two
    scalar-or-broadcast descriptors of [ScaledEpilogueBase]. *)
Theorem X5_args_from_tensor_binds_the_data_pointer :
  ∀ ed Descriptor T tensor args,
    is_load Descriptor = true →
    ScaledEpilogueBase.args_from_tensor ed Descriptor T tensor = Some args →
    pointers_of args = [data_ptr tensor]
    ∧ has_shape Descriptor args = true
    ∧ (Descriptor ≠ ScaledEpilogueBase.ColOrScalarLoad ed T →
       Descriptor ≠ ScaledEpilogueBase.RowOrScalarLoad ed T →
       ∀ sizes',
         ScaledEpilogueBase.args_from_tensor ed Descriptor T
           (mkTensor (data_ptr tensor) sizes') = Some args).
Proof.
  intros ed D T tensor args Hload.
  unfold ScaledEpilogueBase.args_from_tensor.
  destruct (decide (D = ScaledEpilogueBase.ColOrScalarLoad ed T
                    ∨ D = ScaledEpilogueBase.RowOrScalarLoad ed T))
    as [Hs|Hs].
  - intros [= <-]. split; [reflexivity|]. split.
    + destruct Hs as [-> | ->]; reflexivity.
    + intros H1 H2. destruct Hs; contradiction.
  - destruct (decide (D ≠ ScaledEpilogueBase.ColLoad ed T true
                      ∧ D ≠ ScaledEpilogueBase.RowLoad ed T true));
      [|discriminate].
    intros Hinit. split; [|split].
    + destruct D; try discriminate Hload; cbn in Hinit;
        case_decide; try discriminate;
        injection Hinit as <-; reflexivity.
    + destruct D; try discriminate Hload; cbn in Hinit;
        case_decide; try discriminate;
        injection Hinit as <-; reflexivity.
    + intros _ _ sizes'. cbn [data_ptr]. exact Hinit.
Qed.

Lemma X5_args_from_tensor_witness :
  pointers_of (Broadcast_Arguments (data_ptr Ex.a_scales))
  = [data_ptr Ex.a_scales]
  ∧ has_shape (ScaledEpilogueBase.ColLoad Ex.ed float false)
      (Broadcast_Arguments (data_ptr Ex.a_scales)) = true
  ∧ (ScaledEpilogueBase.ColLoad Ex.ed float false
     ≠ ScaledEpilogueBase.ColOrScalarLoad Ex.ed float →
     ScaledEpilogueBase.ColLoad Ex.ed float false
     ≠ ScaledEpilogueBase.RowOrScalarLoad Ex.ed float →
     ∀ sizes',
       ScaledEpilogueBase.args_from_tensor Ex.ed
         (ScaledEpilogueBase.ColLoad Ex.ed float false) float
         (mkTensor (data_ptr Ex.a_scales) sizes')
       = Some (Broadcast_Arguments (data_ptr Ex.a_scales))).
Proof.
  apply (X5_args_from_tensor_binds_the_data_pointer
           Ex.ed (ScaledEpilogueBase.ColLoad Ex.ed float false) float
           Ex.a_scales);
    reflexivity.
Defined.

(** X6. ScaledBiasLs with an all-one multiplier vector gives the same
    output tile as ScaledBias, and with an all-zero bias vector the same
    output tile as ScaledLs, on the same accumulator tile and the same
    other operands, in an arithmetic where one is a unit of multiplication
    and adding zero changes nothing: between the multiply-add and the
    outer multiplication the value stays in float, so no rounding step
    separates the variants. *)
Theorem X6_ScaledBiasLs_reduces_to_ScaledBias_and_ScaledLs :
  ∀ (num : Type) (N : Numeric num) (one zero : num),
    ExactUnits num one zero →
    ∀ ElementAcc ElementD ed a_scales b_scales bias ls
      (mem : Memory num) l tile width,
      Forall (λ row, (length row ≤ width)%nat) tile →
      (tensor_data mem ls = Some (replicate width one) →
       (args ← ScaledEpilogueBiasLs.prepare_args
                 ElementD ed a_scales b_scales bias ls;
        evaluateEpilogue ElementAcc
          (ScaledEpilogueBiasLs.EVTCompute ElementD ed) args mem l tile)
       = (args ← ScaledEpilogueBias.prepare_args
                   ElementD ed a_scales b_scales bias;
          evaluateEpilogue ElementAcc
            (ScaledEpilogueBias.EVTCompute ElementD ed) args mem l tile))
      ∧ (tensor_data mem bias = Some (replicate width zero) →
         (args ← ScaledEpilogueBiasLs.prepare_args
                   ElementD ed a_scales b_scales bias ls;
          evaluateEpilogue ElementAcc
            (ScaledEpilogueBiasLs.EVTCompute ElementD ed) args mem l tile)
         = (args ← ScaledEpilogueLs.prepare_args
                     ElementD ed a_scales b_scales ls;
            evaluateEpilogue ElementAcc
              (ScaledEpilogueLs.EVTCompute ElementD ed) args mem l tile)).
Proof.
  intros num N one zero U Acc D ed a b bias ls mem l tile width Hall.
  split; intros Hdata.
  - rewrite ScaledBiasLs_prepare_args, ScaledBias_prepare_args.
    cbn [mbind option_bind].
    apply evaluateEpilogue_ext. intros m n row acc Hrow Hacc.
    rewrite (visit_buildArguments Acc D ed ScaledBiasLs a b bias ls)
      by apply ScaledBiasLs_prepare_args.
    rewrite (visit_buildArguments Acc D ed ScaledBias a b bias ls)
      by apply ScaledBias_prepare_args.
    cbn [D_at].
    rewrite (channel_value_replicate mem ls width one n Hdata)
      by (eapply tile_column_bound; eassumption).
    cbn [mbind option_bind].
    destruct (scale_value mem a m); [|reflexivity].
    destruct (scale_value mem b n); [|reflexivity].
    destruct (channel_value mem bias n); [|reflexivity].
    cbn. rewrite D_ScaledBiasLs_one. reflexivity.
  - rewrite ScaledBiasLs_prepare_args, ScaledLs_prepare_args.
    cbn [mbind option_bind].
    apply evaluateEpilogue_ext. intros m n row acc Hrow Hacc.
    rewrite (visit_buildArguments Acc D ed ScaledBiasLs a b bias ls)
      by apply ScaledBiasLs_prepare_args.
    rewrite (visit_buildArguments Acc D ed ScaledLs a b bias ls)
      by apply ScaledLs_prepare_args.
    cbn [D_at].
    rewrite (channel_value_replicate mem bias width zero n Hdata)
      by (eapply tile_column_bound; eassumption).
    destruct (channel_value mem ls n); [|reflexivity].
    destruct (scale_value mem a m); [|reflexivity].
    destruct (scale_value mem b n); [|reflexivity].
    cbn. rewrite D_ScaledBiasLs_zero. reflexivity.
Qed.

Lemma X6_ScaledBiasLs_reduces_witness :
  (args ← ScaledEpilogueBiasLs.prepare_args
            half_t Ex.ed Ex.a_scales Ex.b_scales Ex.bias Ex.ls_one;
   evaluateEpilogue int32_t (ScaledEpilogueBiasLs.EVTCompute half_t Ex.ed)
     args Ex.mem 0 Ex.tile)
  = (args ← ScaledEpilogueBias.prepare_args
              half_t Ex.ed Ex.a_scales Ex.b_scales Ex.bias;
     evaluateEpilogue int32_t (ScaledEpilogueBias.EVTCompute half_t Ex.ed)
       args Ex.mem 0 Ex.tile)
  ∧ (args ← ScaledEpilogueBiasLs.prepare_args
              half_t Ex.ed Ex.a_scales Ex.b_scales Ex.bias_zero Ex.ls;
     evaluateEpilogue int32_t (ScaledEpilogueBiasLs.EVTCompute half_t Ex.ed)
       args Ex.mem 0 Ex.tile)
    = (args ← ScaledEpilogueLs.prepare_args
                half_t Ex.ed Ex.a_scales Ex.b_scales Ex.ls;
       evaluateEpilogue int32_t (ScaledEpilogueLs.EVTCompute half_t Ex.ed)
         args Ex.mem 0 Ex.tile).
Proof.
  split.
  - refine (proj1 (X6_ScaledBiasLs_reduces_to_ScaledBias_and_ScaledLs
             Z Numeric_Z 1 0 ExactUnits_Z int32_t half_t Ex.ed
             Ex.a_scales Ex.b_scales Ex.bias Ex.ls_one
             Ex.mem 0%nat Ex.tile 2%nat _) _).
    + repeat constructor.
    + reflexivity.
  - refine (proj2 (X6_ScaledBiasLs_reduces_to_ScaledBias_and_ScaledLs
             Z Numeric_Z 1 0 ExactUnits_Z int32_t half_t Ex.ed
             Ex.a_scales Ex.b_scales Ex.bias_zero Ex.ls
             Ex.mem 0%nat Ex.tile 2%nat _) _).
    + repeat constructor.
    + reflexivity.
Defined.

(** X7. The argument blocks nest as the trees do: the block of ScaledLs
    is the multiplier's block followed by the very block ScaledEpilogue
    builds from the same scales, and the block of ScaledBiasLs is the
    multiplier's block followed by the very block ScaledEpilogueBias
    builds from the same scales and bias. *)
Theorem X7_argument_blocks_nest :
  ∀ ElementD ed a_scales b_scales bias ls,
    ScaledEpilogueLs.prepare_args ElementD ed a_scales b_scales ls
    = (inner ← ScaledEpilogue.prepare_args ElementD ed a_scales b_scales;
       Some (Sm90EVT_Arguments
               [Broadcast_Arguments (data_ptr ls); inner;
                Sm90Compute_Arguments]))
    ∧ ScaledEpilogueBiasLs.prepare_args ElementD ed a_scales b_scales bias ls
      = (inner ← ScaledEpilogueBias.prepare_args
                   ElementD ed a_scales b_scales bias;
         Some (Sm90EVT_Arguments
                 [Broadcast_Arguments (data_ptr ls); inner;
                  Sm90Compute_Arguments])).
Proof.
  intros D ed a b bias ls.
  rewrite ScaledLs_prepare_args, Scaled_prepare_args,
    ScaledBiasLs_prepare_args, ScaledBias_prepare_args.
  split; reflexivity.
Qed.

(** X8. No variant treats a null data pointer as an absent operand: every
    load a variant uses is built without the null-pointer option, so when
    one of the operands a variant reads has a null data pointer, the tree
    has no defined value at any coordinate; a null bias does not turn
    ScaledBias into Scaled. *)
Theorem X8_null_operand_is_not_absent :
  ∀ (num : Type) (N : Numeric num) ElementAcc ElementD ed v
    a_scales b_scales bias ls args (mem : Memory num) acc m n l,
    buildArguments ElementD ed v a_scales b_scales bias ls = Some args →
    nullptr ∈ data_ptr <$> operands v a_scales b_scales bias ls →
    visit ElementAcc (variantEVT ElementD ed v) args mem acc (m, n, l) []
    = None.
Proof.
  intros num N Acc D ed v a b bias ls args mem acc m n l Hargs Hnull.
  rewrite (visit_buildArguments Acc D ed v a b bias ls args) by exact Hargs.
  unfold operands in Hnull.
  destruct v; cbn in Hnull; cbn [D_at];
    repeat (apply elem_of_cons in Hnull as [Hnull|Hnull]);
    try (apply elem_of_nil in Hnull; contradiction);
    symmetry in Hnull;
    first [ rewrite (scale_value_nullptr mem a m Hnull)
          | rewrite (scale_value_nullptr mem b n Hnull)
          | rewrite (channel_value_nullptr mem bias n Hnull)
          | rewrite (channel_value_nullptr mem ls n Hnull) ];
    repeat match goal with
    | |- context [scale_value ?mm ?t ?i] => destruct (scale_value mm t i)
    | |- context [channel_value ?mm ?t ?i] => destruct (channel_value mm t i)
    end;
    reflexivity.
Qed.

Lemma X8_null_operand_witness :
  visit int32_t (variantEVT half_t Ex.ed ScaledBias)
    (Sm90EVT_Arguments
       [scale_args Ex.a_scales; evt0_block Ex.b_scales;
        vector_args Ex2.null_bias; Sm90Compute_Arguments])
    Ex.mem 1 (0, 0, 0)%nat []
  = None.
Proof.
  apply (X8_null_operand_is_not_absent
           Z Numeric_Z int32_t half_t Ex.ed ScaledBias
           Ex.a_scales Ex.b_scales Ex2.null_bias Ex.ls).
  - reflexivity.
  - apply (bool_decide_unpack _). vm_compute. exact I.
Defined.

(** X9. Bias and multiplier are per-column operands whatever their element
    count: with operands that lie apart, changing entry k of the bias, or
    of the multiplier, leaves every output column other than k unchanged,
    and the launch still has a result. *)
Theorem X9_bias_or_multiplier_entry_touches_one_column :
  ∀ (num : Type) (N : Numeric num) ElementAcc ElementD ed v
    a_scales b_scales bias ls args (mem : Memory num) l tile out k x,
    buildArguments ElementD ed v a_scales b_scales bias ls = Some args →
    NoDup (data_ptr <$> operands v a_scales b_scales bias ls) →
    evaluateEpilogue ElementAcc (variantEVT ElementD ed v) args mem l tile
    = Some out →
    (has_bias v = true →
     ∃ out',
       evaluateEpilogue ElementAcc (variantEVT ElementD ed v) args
         (set_entry mem bias k x) l tile = Some out'
       ∧ ∀ m n, n ≠ k → out' !! m ≫= (.!! n) = out !! m ≫= (.!! n))
    ∧ (has_multiplier v = true →
       ∃ out',
         evaluateEpilogue ElementAcc (variantEVT ElementD ed v) args
           (set_entry mem ls k x) l tile = Some out'
         ∧ ∀ m n, n ≠ k → out' !! m ≫= (.!! n) = out !! m ≫= (.!! n)).
Proof.
  intros num N Acc D ed v a b bias ls args mem l tile out k x
    Hargs Hnd Hout.
  split; intros Hv.
  - apply (evaluateEpilogue_set_entry_columns Acc D ed v a b bias ls args
             mem l tile out bias k x Hargs Hout).
    intros m n acc Hn. apply D_at_set_entry_bias; assumption.
  - apply (evaluateEpilogue_set_entry_columns Acc D ed v a b bias ls args
             mem l tile out ls k x Hargs Hout).
    intros m n acc Hn. apply D_at_set_entry_ls; assumption.
Qed.

Lemma X9_bias_or_multiplier_entry_witness :
  (∃ out',
     evaluateEpilogue int32_t (variantEVT half_t Ex.ed ScaledBiasLs)
       (Sm90EVT_Arguments
          [vector_args Ex.ls;
           Sm90EVT_Arguments
             [scale_args Ex.a_scales; evt0_block Ex.b_scales;
              vector_args Ex.bias; Sm90Compute_Arguments];
           Sm90Compute_Arguments])
       (set_entry Ex.mem Ex.bias 0 7) 0 Ex.tile = Some out'
     ∧ ∀ m n, n ≠ 0%nat →
         out' !! m ≫= (.!! n) = [[42; 401]; [182; 1201]] !! m ≫= (.!! n))
  ∧ (∃ out',
       evaluateEpilogue int32_t (variantEVT half_t Ex.ed ScaledBiasLs)
         (Sm90EVT_Arguments
            [vector_args Ex.ls;
             Sm90EVT_Arguments
               [scale_args Ex.a_scales; evt0_block Ex.b_scales;
                vector_args Ex.bias; Sm90Compute_Arguments];
             Sm90Compute_Arguments])
         (set_entry Ex.mem Ex.ls 0 7) 0 Ex.tile = Some out'
       ∧ ∀ m n, n ≠ 0%nat →
           out' !! m ≫= (.!! n) = [[42; 401]; [182; 1201]] !! m ≫= (.!! n)).
Proof.
  destruct (X9_bias_or_multiplier_entry_touches_one_column
              Z Numeric_Z int32_t half_t Ex.ed ScaledBiasLs
              Ex.a_scales Ex.b_scales Ex.bias Ex.ls _ Ex.mem 0%nat Ex.tile
              [[42; 401]; [182; 1201]] 0%nat 7
              (ScaledBiasLs_prepare_args half_t Ex.ed _ _ _ _))
    as [Hbias Hls].
  - apply (bool_decide_unpack _). vm_compute. exact I.
  - vm_compute. reflexivity.
  - split; [apply Hbias | apply Hls]; reflexivity.
Defined.

(** X10. Per-tensor scales: when both scale tensors have exactly one
    element, the Scaled launch is a plain elementwise map of the
    accumulator tile, D = scaleA * (scaleB * Acc) with the same two values
    at every coordinate, whatever the size of the tile; it always has a
    result. *)
Theorem X10_per_tensor_scales_map_the_tile :
  ∀ (num : Type) (N : Numeric num) ElementAcc ElementD ed
    a_scales b_scales (mem : Memory num) l tile sa sb,
    numel a_scales = 1 → tensor_data mem a_scales = Some [sa] →
    numel b_scales = 1 → tensor_data mem b_scales = Some [sb] →
    (args ← ScaledEpilogue.prepare_args ElementD ed a_scales b_scales;
     evaluateEpilogue ElementAcc (ScaledEpilogue.EVTCompute ElementD ed)
       args mem l tile)
    = Some (fmap (M := list)
              (fmap (M := list) (D_Scaled ElementAcc ElementD sa sb)) tile).
Proof.
  intros num N Acc D ed a b mem l tile sa sb Hna Ha Hnb Hb.
  rewrite Scaled_prepare_args. cbn [mbind option_bind].
  rewrite (evaluateEpilogue_Some Acc _ _ mem l tile
             (λ _ _ acc, D_Scaled Acc D sa sb acc)).
  - f_equal. rewrite <- imap_const. apply imap_ext. intros m row _. cbn.
    apply imap_const.
  - intros m n row acc _ _.
    rewrite (visit_buildArguments Acc D ed Scaled a b a a)
      by apply Scaled_prepare_args.
    cbn [D_at].
    rewrite (scale_value_scalar mem a sa m Hna Ha),
      (scale_value_scalar mem b sb n Hnb Hb).
    reflexivity.
Qed.

Lemma X10_per_tensor_scales_witness :
  (args ← ScaledEpilogue.prepare_args
            half_t Ex.ed Ex2.scalar_three Ex2.scalar_three;
   evaluateEpilogue int32_t (ScaledEpilogue.EVTCompute half_t Ex.ed)
     args Ex2.mem 0 Ex.tile)
  = Some (fmap (M := list)
            (fmap (M := list) (D_Scaled int32_t half_t 3 3)) Ex.tile).
Proof.
  apply (X10_per_tensor_scales_map_the_tile
           Z Numeric_Z int32_t half_t Ex.ed
           Ex2.scalar_three Ex2.scalar_three Ex2.mem 0%nat Ex.tile 3 3);
    reflexivity.
Defined.

(** X11. On the first row the element count of scaleA does not matter,
    and on the first column that of scaleB does not: scalar mode and
    vector mode read the same element there.  So for an output of one
    row, a launch depends on scaleA through its data pointer alone (a
    one-element per-row scale is rightly taken for a scalar), and
    likewise for scaleB and an output of one column, in every variant. *)
Theorem X11_modes_agree_on_first_row_and_column :
  ∀ (num : Type) (N : Numeric num) ElementAcc ElementD ed v
    a_scales a_scales' b_scales b_scales' bias ls (mem : Memory num) l tile,
    (data_ptr a_scales = data_ptr a_scales' →
     (length tile ≤ 1)%nat →
     (args ← buildArguments ElementD ed v a_scales b_scales bias ls;
      evaluateEpilogue ElementAcc (variantEVT ElementD ed v) args mem l tile)
     = (args ← buildArguments ElementD ed v a_scales' b_scales bias ls;
        evaluateEpilogue ElementAcc (variantEVT ElementD ed v)
          args mem l tile))
    ∧ (data_ptr b_scales = data_ptr b_scales' →
       Forall (λ row, (length row ≤ 1)%nat) tile →
       (args ← buildArguments ElementD ed v a_scales b_scales bias ls;
        evaluateEpilogue ElementAcc (variantEVT ElementD ed v)
          args mem l tile)
       = (args ← buildArguments ElementD ed v a_scales b_scales' bias ls;
          evaluateEpilogue ElementAcc (variantEVT ElementD ed v)
            args mem l tile)).
Proof.
  intros num N Acc D ed v a a' b b' bias ls mem l tile. split.
  - intros Hp Hlen.
    destruct (buildArguments_is_Some D ed v a b bias ls) as [args Hargs].
    destruct (buildArguments_is_Some D ed v a' b bias ls) as [args' Hargs'].
    rewrite Hargs, Hargs'. cbn [mbind option_bind].
    apply evaluateEpilogue_ext. intros m n row acc Hrow Hacc.
    rewrite (visit_buildArguments Acc D ed v a b bias ls args),
      (visit_buildArguments Acc D ed v a' b bias ls args') by assumption.
    apply lookup_lt_Some in Hrow. replace m with 0%nat by lia.
    apply D_at_scaleA_first_row. exact Hp.
  - intros Hp Hall.
    destruct (buildArguments_is_Some D ed v a b bias ls) as [args Hargs].
    destruct (buildArguments_is_Some D ed v a b' bias ls) as [args' Hargs'].
    rewrite Hargs, Hargs'. cbn [mbind option_bind].
    apply evaluateEpilogue_ext. intros m n row acc Hrow Hacc.
    rewrite (visit_buildArguments Acc D ed v a b bias ls args),
      (visit_buildArguments Acc D ed v a b' bias ls args') by assumption.
    pose proof (tile_column_bound tile 1 m n row acc Hall Hrow Hacc).
    replace n with 0%nat by lia.
    apply D_at_scaleB_first_column. exact Hp.
Qed.

Lemma X11_modes_agree_witness :
  (args ← buildArguments half_t Ex.ed ScaledBias
            Ex2.scalar_three Ex.b_scales Ex.bias Ex.ls;
   evaluateEpilogue int32_t (variantEVT half_t Ex.ed ScaledBias)
     args Ex2.mem 0 [[1; 2]])
  = (args ← buildArguments half_t Ex.ed ScaledBias
              (mkTensor (data_ptr Ex2.scalar_three) [1; 1; 2])
              Ex.b_scales Ex.bias Ex.ls;
     evaluateEpilogue int32_t (variantEVT half_t Ex.ed ScaledBias)
       args Ex2.mem 0 [[1; 2]])
  ∧ (args ← buildArguments half_t Ex.ed ScaledBias
              Ex.a_scales Ex2.scalar_three Ex.bias Ex.ls;
     evaluateEpilogue int32_t (variantEVT half_t Ex.ed ScaledBias)
       args Ex2.mem 0 [[1]; [3]])
    = (args ← buildArguments half_t Ex.ed ScaledBias
                Ex.a_scales (mkTensor (data_ptr Ex2.scalar_three) [2])
                Ex.bias Ex.ls;
       evaluateEpilogue int32_t (variantEVT half_t Ex.ed ScaledBias)
         args Ex2.mem 0 [[1]; [3]]).
Proof.
  split.
  - apply (proj1 (X11_modes_agree_on_first_row_and_column
             Z Numeric_Z int32_t half_t Ex.ed ScaledBias
             Ex2.scalar_three (mkTensor (data_ptr Ex2.scalar_three) [1; 1; 2])
             Ex.b_scales Ex.b_scales Ex.bias Ex.ls Ex2.mem 0%nat [[1; 2]]));
      [reflexivity | cbn; lia].
  - apply (proj2 (X11_modes_agree_on_first_row_and_column
             Z Numeric_Z int32_t half_t Ex.ed ScaledBias
             Ex.a_scales Ex.a_scales
             Ex2.scalar_three (mkTensor (data_ptr Ex2.scalar_three) [2])
             Ex.bias Ex.ls Ex2.mem 0%nat [[1]; [3]]));
      [reflexivity | repeat constructor].
Defined.
